(** * bsl::safe_integral: a shallow embedding of include/bsl/safe_integral.hpp

    The header defines [safe_integral<T>]: an integral [m_val] of a fixed
    width type [T] paired with a sticky error flag [m_error].  Every
    function of the header is transcribed below as a function on that
    record; the template parameter [T] and the build macros the header
    reads are variables of the enclosing section. *)

From Stdlib Require Import ZArith Bool List Lia.
From Stdlib Require String.
From stdpp Require Import gmap.

Local Open Scope Z_scope.

(** ** The integral types the header is instantiated with

    [safe_int8 .. safe_int64] and [safe_uint8 .. safe_uint64] (the fast,
    least, max and ptr aliases name one of the same eight types). *)

Inductive width : Set := W8 | W16 | W32 | W64.

Record int_type : Set := IntType { signed : bool; int_width : width }.

Definition int8 := IntType true W8.
Definition int16 := IntType true W16.
Definition int32 := IntType true W32.
Definition int64 := IntType true W64.
Definition uint8 := IntType false W8.
Definition uint16 := IntType false W16.
Definition uint32 := IntType false W32.
Definition uint64 := IntType false W64.

Definition bits_of (w : width) : Z :=
  match w with W8 => 8 | W16 => 16 | W32 => 32 | W64 => 64 end.

Definition bits (T : int_type) : Z := bits_of (int_width T).

(** numeric_limits<T>::min() and numeric_limits<T>::max(). *)
Definition numeric_limits_min (T : int_type) : Z :=
  if signed T then - 2 ^ (bits T - 1) else 0.

Definition numeric_limits_max (T : int_type) : Z :=
  if signed T then 2 ^ (bits T - 1) - 1 else 2 ^ bits T - 1.

(** [representable T z]: the mathematical integer [z] is a value of [T]. *)
Definition representable (T : int_type) (z : Z) : bool :=
  (numeric_limits_min T <=? z) && (z <=? numeric_limits_max T).

(** Conversion of a mathematical integer to [T] (two's complement
    wrap-around), as a store into a [T] object performs it. *)
Definition wrap (T : int_type) (z : Z) : Z :=
  if signed T
  then (z + 2 ^ (bits T - 1)) mod 2 ^ bits T - 2 ^ (bits T - 1)
  else z mod 2 ^ bits T.

(** The object: [T m_val; bool m_error;]. *)
Record safe_integral : Set := SafeIntegral { m_val : Z; m_error : bool }.

(** Native operations the division family may hand to the hardware, and
    a computation that records the ones it executed. *)
Inductive native_op : Set :=
| NativeDiv (dividend divisor : Z)
| NativeMod (dividend divisor : Z).

Definition traced (A : Type) : Type := A * list native_op.
Definition value {A : Type} (c : traced A) : A := fst c.
Definition trace {A : Type} (c : traced A) : list native_op := snd c.
Definition skip {A : Type} (a : A) : traced A := (a, nil).

(** * bsl::basic_errc_type (basic_errc_type.hpp)

    An error code is one integral [m_errc] of type [T]; the predefined
    codes use the default [T = bsl::int32].  Zero is success, a negative
    code is "checked", a positive one "unchecked". *)

Module Errc.

Import Stdlib.Strings.String.

Record basic_errc_type : Set := BasicErrc { m_errc : Z }.

(** [explicit constexpr basic_errc_type(value_type const &errc)]. *)
Definition make (errc : Z) : basic_errc_type := {| m_errc := errc |}.

Definition get (this : basic_errc_type) : Z := m_errc this.

(** [m_errc == T{}], [m_errc != T{}], [m_errc < T{}], [m_errc > T{}]. *)
Definition success (this : basic_errc_type) : bool := m_errc this =? 0.
Definition failure (this : basic_errc_type) : bool := negb (m_errc this =? 0).
Definition is_checked (this : basic_errc_type) : bool := m_errc this <? 0.
Definition is_unchecked (this : basic_errc_type) : bool := m_errc this >? 0.

Definition op_bool (this : basic_errc_type) : bool := success this.

Definition op_eq (lhs rhs : basic_errc_type) : bool := get lhs =? get rhs.
Definition op_ne (lhs rhs : basic_errc_type) : bool := negb (op_eq lhs rhs).

(** Pre-defined error codes. *)
Definition errc_success := make 0.
Definition errc_failure := make 1.
Definition errc_precondition := make 2.
Definition errc_postcondition := make 3.
Definition errc_assetion := make 4.
Definition errc_invalid_argument := make 10.
Definition errc_index_out_of_bounds := make 11.
Definition errc_bad_function := make 12.
Definition errc_unsigned_wrap := make 30.
Definition errc_narrow_overflow := make 31.
Definition errc_signed_overflow := make 32.
Definition errc_divide_by_zero := make 33.
Definition errc_nullptr_dereference := make 34.

(** [message()]: [bsl::string_view msg{}] is overwritten by the [case]
    whose label equals [m_errc]; [default] leaves it empty. *)
Definition message (this : basic_errc_type) : String.string :=
  let msg := String.EmptyString in
  if m_errc this =? get errc_success then "success"%string
  else if m_errc this =? get errc_failure then "general failure"%string
  else if m_errc this =? get errc_precondition
  then "general precondition failure"%string
  else if m_errc this =? get errc_postcondition
  then "general postcondition failure"%string
  else if m_errc this =? get errc_assetion
  then "general assertion failure"%string
  else if m_errc this =? get errc_invalid_argument
  then "invalid argument (precondition) failure"%string
  else if m_errc this =? get errc_index_out_of_bounds
  then "index out of bounds (precondition) failure"%string
  else if m_errc this =? get errc_bad_function
  then "function not callable (precondition) failure"%string
  else if m_errc this =? get errc_unsigned_wrap
  then "unsigned wrap (assertion) failure"%string
  else if m_errc this =? get errc_narrow_overflow
  then "narrow overflow (assertion) failure"%string
  else if m_errc this =? get errc_signed_overflow
  then "signed overflow (assertion) failure"%string
  else if m_errc this =? get errc_divide_by_zero
  then "divide by zero (assertion) failure"%string
  else if m_errc this =? get errc_nullptr_dereference
  then "null dereference (assertion) failure"%string
  else msg.

(** The codes the header predefines, in declaration order. *)
Definition predefined : list basic_errc_type :=
  errc_success :: errc_failure :: errc_precondition :: errc_postcondition
  :: errc_assetion :: errc_invalid_argument :: errc_index_out_of_bounds
  :: errc_bad_function :: errc_unsigned_wrap :: errc_narrow_overflow
  :: errc_signed_overflow :: errc_divide_by_zero
  :: errc_nullptr_dereference :: nil.

End Errc.

(** * bsl::dynarray (bsl.h)

    A [dynarray<T, Deleter>] owns an array through a pointer [m_ptr] and an
    element count [m_count]; its base class is the deleter.  Objects live in
    a store indexed by address, arrays in a heap indexed by their base
    pointer, and every call of a deleter is recorded.  A member function is
    a computation on that world which returns, throws, terminates the
    program, or runs into behaviour the language leaves undefined (a read
    or write outside an array or through a pointer to nothing). *)

Module Dynarray.

Inductive exn : Set := logic_error | out_of_range.

Inductive outcome (R : Type) : Type :=
| Returns (r : R)
| Throws (e : exn)
| Terminates
| Undefined
| OutOfFuel.

Arguments Returns {R} r.
Arguments Throws {R} e.
Arguments Terminates {R}.
Arguments Undefined {R}.
Arguments OutOfFuel {R}.

(** The contract macros of the header expand according to three build
    macros: [BAREFLANK_CORE_GUIDELINE_COMPLIANT], the violation policy
    ([BAREFLANK_THROW_ON_CONTRACT_VIOLATION], else
    [BAREFLANK_TERMINATE_ON_CONTRACT_VIOLATION], else neither) and
    [BAREFLANK_IGNORE_ENSURES_CONTRACT_VIOLATIONS].  (With
    [BAREFLANK_CUSTOM_ON_CONTRACT_VIOLATION] the header defines no
    [bfexpects] at all and leaves it to the user; that build is not
    covered.) *)
Inductive violation_policy : Set :=
| ThrowOnViolation
| TerminateOnViolation
| NoPolicy.

Record contract_build : Set := ContractBuild {
  core_guideline_compliant : bool;
  policy : violation_policy;
  ignore_ensures : bool
}.

(** [std::size_t] arithmetic wraps modulo [2^64]. *)
Definition size_t_wrap (z : Z) : Z := z mod 2 ^ 64.

(** Conversion to the 64-bit signed [std::ptrdiff_t]. *)
Definition ptrdiff_wrap (z : Z) : Z := (z + 2 ^ 63) mod 2 ^ 64 - 2 ^ 63.

Definition nullptr : nat := 0%nat.

Section DynarrayOf.

(** Element type [T] (with its [==]) and the deleter type. *)
Context {A : Type} `{EqDecision A} {D : Type}.

(** What calling a deleter does to the heap. *)
Variable invoke : D -> nat -> Z -> gmap nat (list A) -> gmap nat (list A).

Variable build : contract_build.

Record dynarray : Type := DynArray {
  m_deleter : D;
  m_ptr : nat;
  m_count : Z
}.

Record world : Type := World {
  objects : gmap nat dynarray;
  heap : gmap nat (list A);
  deleter_calls : list (D * nat * Z)
}.

Definition M (R : Type) : Type := world -> outcome (R * world).

Definition ret {R : Type} (r : R) : M R := fun w => Returns (r, w).

Definition bind {R S : Type} (m : M R) (k : R -> M S) : M S :=
  fun w =>
    match m w with
    | Returns (r, w') => k r w'
    | Throws e => Throws e
    | Terminates => Terminates
    | Undefined => Undefined
    | OutOfFuel => OutOfFuel
    end.

Notation "'let!' x ':=' m 'in' k" := (bind m (fun x => k))
  (at level 10, x name, m at level 100, k at level 200).

Definition throw {R : Type} (e : exn) : M R := fun _ => Throws e.
Definition terminate {R : Type} : M R := fun _ => Terminates.
Definition undefined {R : Type} : M R := fun _ => Undefined.
Definition out_of_fuel {R : Type} : M R := fun _ => OutOfFuel.

(** Reads and writes of the object at an address, and of an array element. *)
Definition this_object (this : nat) : M dynarray :=
  fun w =>
    match objects w !! this with
    | Some d => Returns (d, w)
    | None => Undefined
    end.

Definition set_object (this : nat) (d : dynarray) : M unit :=
  fun w =>
    Returns (tt, {| objects := <[this := d]> (objects w);
                    heap := heap w;
                    deleter_calls := deleter_calls w |}).

Definition end_of_life (this : nat) : M unit :=
  fun w =>
    Returns (tt, {| objects := delete this (objects w);
                    heap := heap w;
                    deleter_calls := deleter_calls w |}).

Definition subscript (p : nat) (i : Z) : M A :=
  fun w =>
    match heap w !! p with
    | Some arr =>
        if (0 <=? i) && (i <? Z.of_nat (length arr)) then
          match arr !! Z.to_nat i with
          | Some x => Returns (x, w)
          | None => Undefined
          end
        else Undefined
    | None => Undefined
    end.

Definition assign_subscript (p : nat) (i : Z) (v : A) : M unit :=
  fun w =>
    match heap w !! p with
    | Some arr =>
        if (0 <=? i) && (i <? Z.of_nat (length arr)) then
          Returns (tt, {| objects := objects w;
                          heap := <[p := <[Z.to_nat i := v]> arr]> (heap w);
                          deleter_calls := deleter_calls w |})
        else Undefined
    | None => Undefined
    end.

(** [get_deleter()(ptr, count)]. *)
Definition call_deleter (d : D) (p : nat) (n : Z) : M unit :=
  fun w =>
    Returns (tt, {| objects := objects w;
                    heap := invoke d p n (heap w);
                    deleter_calls := deleter_calls w ++ (d, p, n) :: nil |}).

(** *** Contract macros.  The tested expression is only evaluated where the
    macro expands to a check. *)

Definition BAREFLANK_CONTRACT_CHECK_THROW (test : M bool) : M unit :=
  let! ok := test in if ok then ret tt else throw logic_error.

Definition BAREFLANK_CONTRACT_CHECK_TERMINATE (test : M bool) : M unit :=
  let! ok := test in if ok then ret tt else terminate.

Definition bfexpects (test : M bool) : M unit :=
  if core_guideline_compliant build then
    match policy build with
    | ThrowOnViolation => BAREFLANK_CONTRACT_CHECK_THROW test
    | TerminateOnViolation => BAREFLANK_CONTRACT_CHECK_TERMINATE test
    | NoPolicy => ret tt
    end
  else ret tt.

Definition bfensures (test : M bool) : M unit :=
  if core_guideline_compliant build then
    if ignore_ensures build then ret tt
    else
      match policy build with
      | ThrowOnViolation => BAREFLANK_CONTRACT_CHECK_THROW test
      | TerminateOnViolation => BAREFLANK_CONTRACT_CHECK_TERMINATE test
      | NoPolicy => ret tt
      end
  else ret tt.

Definition bfexpects_terminate (test : M bool) : M unit :=
  if core_guideline_compliant build
  then BAREFLANK_CONTRACT_CHECK_TERMINATE test
  else ret tt.

Definition bfensures_terminate (test : M bool) : M unit :=
  if core_guideline_compliant build then
    if ignore_ensures build then ret tt
    else BAREFLANK_CONTRACT_CHECK_TERMINATE test
  else ret tt.

Definition bfensures_if_terminate (cond : bool) (test : M bool) : M unit :=
  if core_guideline_compliant build then
    if ignore_ensures build then ret tt
    else if cond then BAREFLANK_CONTRACT_CHECK_TERMINATE test else ret tt
  else ret tt.

(** *** Observers *)

Definition get (this : nat) : M nat :=
  let! d := this_object this in ret (m_ptr d).

Definition get_deleter (this : nat) : M D :=
  let! d := this_object this in ret (m_deleter d).

Definition size (this : nat) : M Z :=
  let! d := this_object this in ret (m_count d).

Definition empty (this : nat) : M bool :=
  let! n := size this in ret (n =? 0).

Definition op_bool (this : nat) : M bool :=
  let! p := get this in ret (negb (Nat.eqb p nullptr)).

(** *** Ownership *)

Definition release (this : nat) : M (nat * Z) :=
  let! old_ptr := get this in
  let! old_count := size this in
  let! d := this_object this in
  let! _ := set_object this
              {| m_deleter := m_deleter d; m_ptr := nullptr; m_count := 0 |} in
  let! _ := bfensures_terminate
              (let! p := get this in ret (Nat.eqb p nullptr)) in
  let! _ := bfensures_terminate
              (let! n := size this in ret (n =? 0)) in
  ret (old_ptr, old_count).

Definition reset (this : nat) (ptr : nat) (count : Z) : M unit :=
  let! _ := bfexpects_terminate
              (ret (negb (Nat.eqb ptr nullptr) || (count =? 0))) in
  let! _ := bfexpects_terminate
              (ret (Nat.eqb ptr nullptr || (count >=? 1))) in
  let! d := this_object this in
  let old_ptr := m_ptr d in
  let old_count := m_count d in
  let! _ := set_object this
              {| m_deleter := m_deleter d; m_ptr := ptr; m_count := count |} in
  let! _ := (if negb (Nat.eqb old_ptr nullptr)
             then let! del := get_deleter this in
                  call_deleter del old_ptr old_count
             else ret tt) in
  let! _ := bfensures_if_terminate (Nat.eqb ptr nullptr) (empty this) in
  bfensures_if_terminate (negb (Nat.eqb ptr nullptr))
    (let! e := empty this in ret (negb e)).

Definition reset_pair (this : nat) (info : nat * Z) : M unit :=
  reset this (fst info) (snd info).

Definition reset_nullptr (this : nat) : M unit := reset this nullptr 0.

(** [explicit dynarray(dynarray &&u) : deleter_type(std::move(u))], building
    the object at address [self]: the members start from their default
    initialisers and are exchanged with those of [u]. *)
Definition move_construct (self u : nat) : M unit :=
  let! du := this_object u in
  let! _ := set_object self
              {| m_deleter := m_deleter du; m_ptr := nullptr; m_count := 0 |} in
  let! ds := this_object self in
  let! du := this_object u in
  let! _ := set_object u
              {| m_deleter := m_deleter du; m_ptr := m_ptr ds;
                 m_count := m_count du |} in
  let! _ := set_object self
              {| m_deleter := m_deleter ds; m_ptr := m_ptr du;
                 m_count := m_count ds |} in
  let! ds := this_object self in
  let! du := this_object u in
  let! _ := set_object u
              {| m_deleter := m_deleter du; m_ptr := m_ptr du;
                 m_count := m_count ds |} in
  let! _ := set_object self
              {| m_deleter := m_deleter ds; m_ptr := m_ptr ds;
                 m_count := m_count du |} in
  bfensures_terminate (empty u).

(** [~dynarray()]. *)
Definition destroy (this : nat) : M unit :=
  let! p := get this in
  let! _ := (if negb (Nat.eqb p nullptr)
             then let! del := get_deleter this in
                  let! p := get this in
                  let! n := size this in
                  call_deleter del p n
             else ret tt) in
  end_of_life this.

(** [operator=(dynarray &&r)]. *)
Definition move_assign (this r : nat) : M nat :=
  if Nat.eqb r this then ret this
  else
    let! info := release r in
    let! _ := reset_pair this info in
    let! del := get_deleter r in
    let! d := this_object this in
    let! _ := set_object this
                {| m_deleter := del; m_ptr := m_ptr d; m_count := m_count d |} in
    let! _ := bfensures_terminate (empty r) in
    ret this.

(** [swap(dynarray &other)]: [tmp] is a local at an unused address. *)
Definition swap (this other : nat) : M unit :=
  fun w =>
    let tmp := fresh (dom (objects w)) in
    (let! _ := move_construct tmp this in
     let! _ := move_assign this other in
     let! _ := move_assign other tmp in
     destroy tmp) w.

(** *** Element access *)

(** [operator[]]. *)
Definition index (this : nat) (i : Z) : M A :=
  let! _ := bfexpects (let! n := size this in ret (i <? n)) in
  let! p := get this in
  subscript p i.

Definition at_ (this : nat) (pos : Z) : M A :=
  let! n := size this in
  if pos >=? n then throw out_of_range
  else let! p := get this in subscript p pos.

Definition front (this : nat) : M A :=
  let! _ := bfexpects (let! e := empty this in ret (negb e)) in
  let! p := get this in
  subscript p 0.

Definition back (this : nat) : M A :=
  let! _ := bfexpects (let! e := empty this in ret (negb e)) in
  let! p := get this in
  let! n := size this in
  subscript p (size_t_wrap (n - 1)).

(** [fill]: [for (index_type i = 0; i < size(); ++i) get()[i] = value;]. *)
Fixpoint fill_loop (fuel : nat) (this : nat) (value : A) (i : Z) : M unit :=
  match fuel with
  | O => out_of_fuel
  | S fuel' =>
      let! n := size this in
      if i <? n then
        let! p := get this in
        let! _ := assign_subscript p i value in
        fill_loop fuel' this value (size_t_wrap (i + 1))
      else ret tt
  end.

Definition fill (fuel : nat) (this : nat) (value : A) : M unit :=
  fill_loop fuel this value 0.

(** [operator==] and [operator!=] of two arrays:
    [for (size_t i = 0; i < lhs.size(); --i)]. *)
Fixpoint eq_loop (fuel : nat) (lhs rhs : nat) (i : Z) : M bool :=
  match fuel with
  | O => out_of_fuel
  | S fuel' =>
      let! n := size lhs in
      if i <? n then
        let! pl := get lhs in
        let! x := subscript pl i in
        let! pr := get rhs in
        let! y := subscript pr i in
        if negb (bool_decide (x = y)) then ret false
        else eq_loop fuel' lhs rhs (size_t_wrap (i - 1))
      else ret true
  end.

Definition op_eq (fuel : nat) (lhs rhs : nat) : M bool :=
  let! nl := size lhs in
  let! nr := size rhs in
  if negb (nl =? nr) then ret false
  else eq_loop fuel lhs rhs 0.

Definition op_ne (fuel : nat) (lhs rhs : nat) : M bool :=
  let! b := op_eq fuel lhs rhs in ret (negb b).

(** *** Iterators: [random_access_iterator<Array, T>] holds the address of
    its array object and a [std::ptrdiff_t] index.  (Signed overflow of the
    index is not defined by the language; the arithmetic below wraps, and
    the properties proved about it stay within range.) *)

Record random_access_iterator : Set := Iterator { m_a : nat; m_i : Z }.

Definition ssize (this : nat) : M Z :=
  let! n := size this in ret (ptrdiff_wrap n).

Definition begin_ (this : nat) : M random_access_iterator :=
  ret {| m_a := this; m_i := 0 |}.

Definition end_ (this : nat) : M random_access_iterator :=
  let! n := ssize this in ret {| m_a := this; m_i := n |}.

Definition it_add_assign (it : random_access_iterator) (n : Z)
  : random_access_iterator :=
  {| m_a := m_a it; m_i := ptrdiff_wrap (m_i it + n) |}.

Definition it_sub_assign (it : random_access_iterator) (n : Z)
  : random_access_iterator :=
  {| m_a := m_a it; m_i := ptrdiff_wrap (m_i it - n) |}.

Definition it_inc (it : random_access_iterator) : random_access_iterator :=
  {| m_a := m_a it; m_i := ptrdiff_wrap (m_i it + 1) |}.

Definition it_dec (it : random_access_iterator) : random_access_iterator :=
  {| m_a := m_a it; m_i := ptrdiff_wrap (m_i it - 1) |}.

Definition it_add (it : random_access_iterator) (n : Z)
  : random_access_iterator :=
  let ret := it in it_add_assign ret n.

Definition it_sub (it : random_access_iterator) (n : Z)
  : random_access_iterator :=
  let ret := it in it_sub_assign ret n.

Definition it_diff (lhs rhs : random_access_iterator) : Z :=
  ptrdiff_wrap (m_i lhs - m_i rhs).

Definition it_eq (lhs rhs : random_access_iterator) : bool :=
  Nat.eqb (m_a lhs) (m_a rhs) && (m_i lhs =? m_i rhs).

Definition it_ne (lhs rhs : random_access_iterator) : bool :=
  negb (it_eq lhs rhs).

Definition it_lt (lhs rhs : random_access_iterator) : bool :=
  m_i lhs <? m_i rhs.

(** [operator*]. *)
Definition it_deref (it : random_access_iterator) : M A :=
  let! _ := bfexpects (ret (negb (Nat.eqb (m_a it) nullptr))) in
  let! _ := bfexpects (let! n := ssize (m_a it) in
                       ret ((m_i it >=? 0) && (m_i it <? n))) in
  let! p := get (m_a it) in
  subscript p (size_t_wrap (m_i it)).

(** [operator[]] of the iterator. *)
Definition it_index (it : random_access_iterator) (n : Z) : M A :=
  let! _ := bfexpects (ret (negb (Nat.eqb (m_a it) nullptr))) in
  let! _ := bfexpects (let! s := size (m_a it) in ret (n <? s)) in
  let! p := get (m_a it) in
  subscript p n.

(** The class invariant the constructors and [reset] check: a null pointer
    goes with a zero count and conversely. *)
Definition well_formed (d : dynarray) : Prop :=
  m_ptr d = nullptr <-> m_count d = 0.

(** The array of [d] is in the heap with [m_count d] elements. *)
Definition owns (w : world) (d : dynarray) (arr : list A) : Prop :=
  heap w !! m_ptr d = Some arr /\ Z.of_nat (length arr) = m_count d.

(** [m_count d] is the number of elements at [m_ptr d], none when nothing
    is allocated there. *)
Definition sized (w : world) (d : dynarray) : Prop :=
  match heap w !! m_ptr d with
  | Some arr => Z.of_nat (length arr) = m_count d
  | None => m_count d = 0
  end.

(** What a violated [bfexpects] does in this build, when the code after it
    would run into undefined behaviour. *)
Definition on_violated_expects {R : Type} : outcome R :=
  if core_guideline_compliant build then
    match policy build with
    | ThrowOnViolation => Throws logic_error
    | TerminateOnViolation => Terminates
    | NoPolicy => Undefined
    end
  else Undefined.

Definition with_object (this : nat) (d : dynarray) (w : world) : world :=
  {| objects := <[this := d]> (objects w);
     heap := heap w;
     deleter_calls := deleter_calls w |}.

(** [d] after it gave its array away. *)
Definition emptied (d : dynarray) : dynarray :=
  {| m_deleter := m_deleter d; m_ptr := nullptr; m_count := 0 |}.

(** The world once the deleter of [d] has been called on the array of [d],
    if [d] has one. *)
Definition after_delete (d : dynarray) (w : world) : world :=
  if Nat.eqb (m_ptr d) nullptr then w
  else {| objects := objects w;
          heap := invoke (m_deleter d) (m_ptr d) (m_count d) (heap w);
          deleter_calls :=
            deleter_calls w ++ (m_deleter d, m_ptr d, m_count d) :: nil |}.

End DynarrayOf.

(** [default_deleter]: [delete[] ptr]. *)
Definition default_deleter {A : Type} (_ : unit) (ptr : nat) (_ : Z)
    (h : gmap nat (list A)) : gmap nat (list A) :=
  delete ptr h.

End Dynarray.

Section SafeIntegralOf.

(** Template parameter of [safe_integral<T>]. *)
Variable T : int_type.

(** Build macro [BSL_PERFORCE]; the header only reads it (its definition
    is part of the build configuration). *)
Variable BSL_PERFORCE : bool.

(** The value [is_constant_evaluated()] reports at the call. *)
Variable is_constant_evaluated : bool.

Definition integral_overflow_underflow_wrap_error : bool := true.

(** The compiler primitives [__builtin_{add,sub,mul}_overflow]: the exact
    result is computed, converted to the type of [*res], and the
    primitive reports whether the conversion changed it.  A call is
    modelled by the pair (value stored in [*res], returned flag). *)
Definition compiler_builtin_overflow (exact : Z) : Z * bool :=
  (wrap T exact, negb (representable T exact)).

Definition builtin_add_overflow (lhs rhs : Z) : Z * bool :=
  if BSL_PERFORCE then (wrap T (lhs + rhs), true)
  else if is_constant_evaluated then
    let '(res, overflowed) := compiler_builtin_overflow (lhs + rhs) in
    if overflowed then (res, true) else (res, false)
  else compiler_builtin_overflow (lhs + rhs).

Definition builtin_sub_overflow (lhs rhs : Z) : Z * bool :=
  if BSL_PERFORCE then (wrap T (lhs - rhs), true)
  else if is_constant_evaluated then
    let '(res, overflowed) := compiler_builtin_overflow (lhs - rhs) in
    if overflowed then (res, true) else (res, false)
  else compiler_builtin_overflow (lhs - rhs).

Definition builtin_mul_overflow (lhs rhs : Z) : Z * bool :=
  if BSL_PERFORCE then (wrap T (lhs * rhs), true)
  else if is_constant_evaluated then
    let '(res, overflowed) := compiler_builtin_overflow (lhs * rhs) in
    if overflowed then (res, true) else (res, false)
  else compiler_builtin_overflow (lhs * rhs).

(** *** Constructors, assignment and accessors *)

(** [explicit safe_integral(U val) : m_val{val}, m_error{}]. *)
Definition make (val : Z) : safe_integral :=
  {| m_val := val; m_error := false |}.

(** [safe_integral(U val, bool err) : m_val{val}, m_error{err}]. *)
Definition make_err (val : Z) (err : bool) : safe_integral :=
  {| m_val := val; m_error := err |}.

(** [operator=(U val)]. *)
Definition op_assign (this : safe_integral) (val : Z) : safe_integral :=
  {| m_val := val; m_error := false |}.

Definition get (this : safe_integral) : Z :=
  if m_error this then 0 else m_val this.

Definition op_bool (this : safe_integral) : bool := negb (m_error this).

Definition failure (this : safe_integral) : bool := m_error this.

Definition set_failure (this : safe_integral) : safe_integral :=
  {| m_val := m_val this; m_error := true |}.

(** static [max()] and [min()]. *)
Definition max : Z := numeric_limits_max T.
Definition min : Z := numeric_limits_min T.

(** static [one(err)] and [zero(err)]. *)
Definition one (err : bool) : safe_integral := make_err 1 err.
Definition zero (err : bool) : safe_integral := make_err 0 err.

(** [max(safe_integral const &other)] and [max(U other)]. *)
Definition max_of (this other : safe_integral) : safe_integral :=
  if failure this || failure other then zero true
  else make (if m_val this <? m_val other then m_val other else m_val this).

Definition max_of_raw (this : safe_integral) (other : Z) : safe_integral :=
  if failure this then zero true
  else make (if m_val this <? other then other else m_val this).

(** [min(safe_integral const &other)] and [min(U other)]. *)
Definition min_of (this other : safe_integral) : safe_integral :=
  if failure this || failure other then zero true
  else make (if m_val this <? m_val other then m_val this else m_val other).

Definition min_of_raw (this : safe_integral) (other : Z) : safe_integral :=
  if failure this then zero true
  else make (if m_val this <? other then m_val this else other).

Definition is_signed_type : bool := signed T.
Definition is_unsigned_type : bool := negb (signed T).

(** *** Relational operators

    (Free functions of the header; they come first here because the
    members below call them.)  Each operator has three overloads:
    (safe, safe), (safe, T) and (T, safe). *)

Definition op_eq (lhs rhs : safe_integral) : bool :=
  (get lhs =? get rhs) && negb (failure lhs) && negb (failure rhs).
Definition op_eq_sr (lhs : safe_integral) (rhs : Z) : bool :=
  (get lhs =? rhs) && negb (failure lhs).
Definition op_eq_rs (lhs : Z) (rhs : safe_integral) : bool :=
  (lhs =? get rhs) && negb (failure rhs).

Definition op_ne (lhs rhs : safe_integral) : bool := negb (op_eq lhs rhs).
Definition op_ne_sr (lhs : safe_integral) (rhs : Z) : bool :=
  negb (op_eq_sr lhs rhs).
Definition op_ne_rs (lhs : Z) (rhs : safe_integral) : bool :=
  negb (op_eq_rs lhs rhs).

Definition op_lt (lhs rhs : safe_integral) : bool :=
  (get lhs <? get rhs) && negb (failure lhs) && negb (failure rhs).
Definition op_lt_sr (lhs : safe_integral) (rhs : Z) : bool :=
  (get lhs <? rhs) && negb (failure lhs).
Definition op_lt_rs (lhs : Z) (rhs : safe_integral) : bool :=
  (lhs <? get rhs) && negb (failure rhs).

Definition op_le (lhs rhs : safe_integral) : bool :=
  (get lhs <=? get rhs) && negb (failure lhs) && negb (failure rhs).
Definition op_le_sr (lhs : safe_integral) (rhs : Z) : bool :=
  (get lhs <=? rhs) && negb (failure lhs).
Definition op_le_rs (lhs : Z) (rhs : safe_integral) : bool :=
  (lhs <=? get rhs) && negb (failure rhs).

Definition op_gt (lhs rhs : safe_integral) : bool :=
  (get lhs >? get rhs) && negb (failure lhs) && negb (failure rhs).
Definition op_gt_sr (lhs : safe_integral) (rhs : Z) : bool :=
  (get lhs >? rhs) && negb (failure lhs).
Definition op_gt_rs (lhs : Z) (rhs : safe_integral) : bool :=
  (lhs >? get rhs) && negb (failure rhs).

Definition op_ge (lhs rhs : safe_integral) : bool :=
  (get lhs >=? get rhs) && negb (failure lhs) && negb (failure rhs).
Definition op_ge_sr (lhs : safe_integral) (rhs : Z) : bool :=
  (get lhs >=? rhs) && negb (failure lhs).
Definition op_ge_rs (lhs : Z) (rhs : safe_integral) : bool :=
  (lhs >=? get rhs) && negb (failure rhs).

(** *** Sign and extremum predicates *)

Definition is_pos (this : safe_integral) : bool := op_lt (zero false) this.

Definition is_neg (this : safe_integral) : bool :=
  if is_unsigned_type then false else op_gt (zero false) this.

Definition is_zero (this : safe_integral) : bool :=
  if m_error this then true else get (zero false) =? m_val this.

Definition is_max (this : safe_integral) : bool := op_eq_rs max this.
Definition is_min (this : safe_integral) : bool := op_eq_rs min this.

(** *** Compound addition, subtraction and multiplication

    [bool const err{builtin_add_overflow(m_val, rhs.m_val, &m_val)};
     m_error = m_error || (err || rhs.failure());] *)

Definition op_add_assign (this rhs : safe_integral) : safe_integral :=
  let '(res, err) := builtin_add_overflow (m_val this) (m_val rhs) in
  {| m_val := res; m_error := m_error this || (err || failure rhs) |}.

Definition op_add_assign_raw (this : safe_integral) (rhs : Z) : safe_integral :=
  let '(res, err) := builtin_add_overflow (m_val this) rhs in
  {| m_val := res; m_error := m_error this || err |}.

Definition op_sub_assign (this rhs : safe_integral) : safe_integral :=
  let '(res, err) := builtin_sub_overflow (m_val this) (m_val rhs) in
  {| m_val := res; m_error := m_error this || (err || failure rhs) |}.

Definition op_sub_assign_raw (this : safe_integral) (rhs : Z) : safe_integral :=
  let '(res, err) := builtin_sub_overflow (m_val this) rhs in
  {| m_val := res; m_error := m_error this || err |}.

Definition op_mul_assign (this rhs : safe_integral) : safe_integral :=
  let '(res, err) := builtin_mul_overflow (m_val this) (m_val rhs) in
  {| m_val := res; m_error := m_error this || (err || failure rhs) |}.

Definition op_mul_assign_raw (this : safe_integral) (rhs : Z) : safe_integral :=
  let '(res, err) := builtin_mul_overflow (m_val this) rhs in
  {| m_val := res; m_error := m_error this || err |}.

(** [operator++] and [operator--]. *)
Definition op_inc (this : safe_integral) : safe_integral :=
  let '(res, err) := builtin_add_overflow (m_val this) (get (one false)) in
  {| m_val := res; m_error := m_error this || err |}.

Definition op_dec (this : safe_integral) : safe_integral :=
  let '(res, err) := builtin_sub_overflow (m_val this) (get (one false)) in
  {| m_val := res; m_error := m_error this || err |}.

(** Binary [-] and unary [-] (free functions; [operator/=] calls the
    unary one): [safe_integral<T> tmp{lhs}; return tmp -= rhs;] and
    [return safe_integral<T>::zero() - rhs;]. *)
Definition op_sub (lhs rhs : safe_integral) : safe_integral :=
  let tmp := lhs in op_sub_assign tmp rhs.

Definition op_neg (rhs : safe_integral) : safe_integral :=
  op_sub (zero false) rhs.

(** *** Compound division and modulo

    The native [/] and [%] of [T] truncate toward zero; the language
    leaves them undefined for a zero divisor and for [min / -1] (the
    quotient is not a value of [T]).  [native_defined] is that side
    condition; [native_div] and [native_mod] give the result, converted
    to [T], and each execution is recorded in the trace. *)

Definition native_defined (dividend divisor : Z) : bool :=
  negb (divisor =? 0) && representable T (Z.quot dividend divisor).

Definition native_div (dividend divisor : Z) : traced Z :=
  (wrap T (Z.quot dividend divisor), NativeDiv dividend divisor :: nil).

Definition native_mod (dividend divisor : Z) : traced Z :=
  (wrap T (Z.rem dividend divisor), NativeMod dividend divisor :: nil).

Definition op_div_assign (this rhs : safe_integral) : traced safe_integral :=
  if failure this || failure rhs then
    skip {| m_val := m_val this; m_error := true |}
  else if op_eq (zero false) rhs then
    skip {| m_val := m_val this;
            m_error := integral_overflow_underflow_wrap_error |}
  else if is_signed_type
          && ((min =? m_val this) && op_eq (op_neg (one false)) rhs) then
    skip {| m_val := m_val this;
            m_error := integral_overflow_underflow_wrap_error |}
  else
    let '(q, executed) := native_div (m_val this) (m_val rhs) in
    ({| m_val := q; m_error := m_error this |}, executed).

Definition op_div_assign_raw (this : safe_integral) (rhs : Z)
  : traced safe_integral :=
  op_div_assign this (make rhs).

Definition op_mod_assign (this rhs : safe_integral) : traced safe_integral :=
  if failure this || failure rhs then
    skip {| m_val := m_val this; m_error := true |}
  else if op_eq (zero false) rhs then
    skip {| m_val := m_val this;
            m_error := integral_overflow_underflow_wrap_error |}
  else if is_signed_type
          && ((min =? m_val this)
              && op_eq_sr (op_neg (one false)) (m_val rhs)) then
    skip {| m_val := m_val this;
            m_error := integral_overflow_underflow_wrap_error |}
  else
    let '(r, executed) := native_mod (m_val this) (m_val rhs) in
    ({| m_val := r; m_error := m_error this |}, executed).

Definition op_mod_assign_raw (this : safe_integral) (rhs : Z)
  : traced safe_integral :=
  op_mod_assign this (make rhs).

(** *** Binary arithmetic operators (free functions)

    [safe_integral<T> tmp{lhs}; return tmp += rhs;] for two safe
    integrals; the mixed overloads wrap the raw operand and call it. *)

Definition op_add (lhs rhs : safe_integral) : safe_integral :=
  let tmp := lhs in op_add_assign tmp rhs.
Definition op_add_sr (lhs : safe_integral) (rhs : Z) : safe_integral :=
  op_add lhs (make rhs).
Definition op_add_rs (lhs : Z) (rhs : safe_integral) : safe_integral :=
  op_add (make lhs) rhs.

Definition op_sub_sr (lhs : safe_integral) (rhs : Z) : safe_integral :=
  op_sub lhs (make rhs).
Definition op_sub_rs (lhs : Z) (rhs : safe_integral) : safe_integral :=
  op_sub (make lhs) rhs.

Definition op_mul (lhs rhs : safe_integral) : safe_integral :=
  let tmp := lhs in op_mul_assign tmp rhs.
Definition op_mul_sr (lhs : safe_integral) (rhs : Z) : safe_integral :=
  op_mul lhs (make rhs).
Definition op_mul_rs (lhs : Z) (rhs : safe_integral) : safe_integral :=
  op_mul (make lhs) rhs.

Definition op_div (lhs rhs : safe_integral) : traced safe_integral :=
  let tmp := lhs in op_div_assign tmp rhs.
Definition op_div_sr (lhs : safe_integral) (rhs : Z) : traced safe_integral :=
  op_div lhs (make rhs).
Definition op_div_rs (lhs : Z) (rhs : safe_integral) : traced safe_integral :=
  op_div (make lhs) rhs.

Definition op_mod (lhs rhs : safe_integral) : traced safe_integral :=
  let tmp := lhs in op_mod_assign tmp rhs.
Definition op_mod_sr (lhs : safe_integral) (rhs : Z) : traced safe_integral :=
  op_mod lhs (make rhs).
Definition op_mod_rs (lhs : Z) (rhs : safe_integral) : traced safe_integral :=
  op_mod (make lhs) rhs.

(** *** Shift operators (enabled for unsigned [T] and unsigned [U] only)

    [T tmp{lhs.get()}; tmp <<= bits; lhs = safe_integral<T>{tmp, lhs.failure()};]
    The functions return the new value of [lhs].  The native shift is
    only defined for [bits] below the width of the promoted operand; the
    header does not check the count. *)

Definition op_shl_assign (lhs : safe_integral) (bits : Z) : safe_integral :=
  let tmp := get lhs in
  let tmp := wrap T (Z.shiftl tmp bits) in
  make_err tmp (failure lhs).

Definition op_shl (lhs : safe_integral) (bits : Z) : safe_integral :=
  let tmp := get lhs in
  let tmp := wrap T (Z.shiftl tmp bits) in
  make_err tmp (failure lhs).

Definition op_shr_assign (lhs : safe_integral) (bits : Z) : safe_integral :=
  let tmp := get lhs in
  let tmp := Z.shiftr tmp bits in
  make_err tmp (failure lhs).

Definition op_shr (lhs : safe_integral) (bits : Z) : safe_integral :=
  let tmp := get lhs in
  let tmp := Z.shiftr tmp bits in
  make_err tmp (failure lhs).

(** *** Bitwise operators (enabled for unsigned [T] only)

    [T tmp{lhs.get()}; tmp &= rhs.get();
     lhs = safe_integral<T>{tmp, lhs.failure() || rhs.failure()};]
    The native operation is computed on the promoted operands and the
    result is stored back into the [T] object [tmp]. *)

Definition op_and_assign (lhs rhs : safe_integral) : safe_integral :=
  let tmp := get lhs in
  let tmp := wrap T (Z.land tmp (get rhs)) in
  make_err tmp (failure lhs || failure rhs).

Definition op_and_assign_raw (lhs : safe_integral) (rhs : Z) : safe_integral :=
  let tmp := get lhs in
  let tmp := wrap T (Z.land tmp rhs) in
  make_err tmp (failure lhs).

Definition op_and (lhs rhs : safe_integral) : safe_integral :=
  let tmp := lhs in op_and_assign tmp rhs.
Definition op_and_sr (lhs : safe_integral) (rhs : Z) : safe_integral :=
  op_and lhs (make rhs).
Definition op_and_rs (lhs : Z) (rhs : safe_integral) : safe_integral :=
  op_and (make lhs) rhs.

Definition op_or_assign (lhs rhs : safe_integral) : safe_integral :=
  let tmp := get lhs in
  let tmp := wrap T (Z.lor tmp (get rhs)) in
  make_err tmp (failure lhs || failure rhs).

Definition op_or_assign_raw (lhs : safe_integral) (rhs : Z) : safe_integral :=
  let tmp := get lhs in
  let tmp := wrap T (Z.lor tmp rhs) in
  make_err tmp (failure lhs).

Definition op_or (lhs rhs : safe_integral) : safe_integral :=
  let tmp := lhs in op_or_assign tmp rhs.
Definition op_or_sr (lhs : safe_integral) (rhs : Z) : safe_integral :=
  op_or lhs (make rhs).
Definition op_or_rs (lhs : Z) (rhs : safe_integral) : safe_integral :=
  op_or (make lhs) rhs.

Definition op_xor_assign (lhs rhs : safe_integral) : safe_integral :=
  let tmp := get lhs in
  let tmp := wrap T (Z.lxor tmp (get rhs)) in
  make_err tmp (failure lhs || failure rhs).

Definition op_xor_assign_raw (lhs : safe_integral) (rhs : Z) : safe_integral :=
  let tmp := get lhs in
  let tmp := wrap T (Z.lxor tmp rhs) in
  make_err tmp (failure lhs).

Definition op_xor (lhs rhs : safe_integral) : safe_integral :=
  let tmp := lhs in op_xor_assign tmp rhs.
Definition op_xor_sr (lhs : safe_integral) (rhs : Z) : safe_integral :=
  op_xor lhs (make rhs).
Definition op_xor_rs (lhs : Z) (rhs : safe_integral) : safe_integral :=
  op_xor (make lhs) rhs.

(** [operator~]: [return safe_integral<T>::max() ^ rhs;]. *)
Definition op_not (rhs : safe_integral) : safe_integral :=
  op_xor_rs max rhs.

(** ** Objects in memory

    The header passes operands by [const &] and mutates [*this] (or
    [lhs]) in place.  A store maps the address of every live
    [safe_integral<T>] object to its current value; a function that takes
    references takes addresses, and two references may alias. *)

(** A compound member operator called as [this->op(rhs)]: both objects
    are read, [*this] is overwritten, and the reference returned is
    [*this].  [step] is the operator on values defined above; the header
    reads [m_val], [rhs.m_val] and both flags before the single
    write-back of each member, so aliasing ([a += a]) is covered by
    reading both operands first. *)
Definition member_compound
    (step : safe_integral -> safe_integral -> safe_integral)
    (this rhs : nat) (st : gmap nat safe_integral)
  : option (nat * gmap nat safe_integral) :=
  a ← st !! this;
  b ← st !! rhs;
  Some (this, <[this := step a b]> st).

Definition ref_add_assign := member_compound op_add_assign.
Definition ref_sub_assign := member_compound op_sub_assign.
Definition ref_mul_assign := member_compound op_mul_assign.
Definition ref_div_assign :=
  member_compound (fun this rhs => value (op_div_assign this rhs)).
Definition ref_mod_assign :=
  member_compound (fun this rhs => value (op_mod_assign this rhs)).

(** [operator@(safe_integral<T> const &lhs, safe_integral<T> const &rhs)]:
    [safe_integral<T> tmp{lhs}; return tmp @= rhs;] - a local [tmp] is
    allocated at an unused address and copy-constructed from [lhs], the
    member operator runs on it, the object it refers to is copied out as
    the return value, and [tmp] dies with the frame. *)
Definition free_binary
    (assign : nat -> nat -> gmap nat safe_integral
              -> option (nat * gmap nat safe_integral))
    (lhs rhs : nat) (st : gmap nat safe_integral)
  : option (safe_integral * gmap nat safe_integral) :=
  a ← st !! lhs;
  let tmp := fresh (dom st) in
  '(r, st') ← assign tmp rhs (<[tmp := a]> st);
  ret ← st' !! r;
  Some (ret, delete tmp st').

(** [operator@(safe_integral<T> const &lhs, T const rhs)]:
    [return lhs @ safe_integral<T>{rhs};] - the temporary built from the
    raw operand lives until the call returns. *)
Definition free_binary_sr
    (assign : nat -> nat -> gmap nat safe_integral
              -> option (nat * gmap nat safe_integral))
    (lhs : nat) (rhs : Z) (st : gmap nat safe_integral)
  : option (safe_integral * gmap nat safe_integral) :=
  let t := fresh (dom st) in
  '(ret, st') ← free_binary assign lhs t (<[t := make rhs]> st);
  Some (ret, delete t st').

(** [operator@(T const lhs, safe_integral<T> const &rhs)]:
    [return safe_integral<T>{lhs} @ rhs;]. *)
Definition free_binary_rs
    (assign : nat -> nat -> gmap nat safe_integral
              -> option (nat * gmap nat safe_integral))
    (lhs : Z) (rhs : nat) (st : gmap nat safe_integral)
  : option (safe_integral * gmap nat safe_integral) :=
  let t := fresh (dom st) in
  '(ret, st') ← free_binary assign t rhs (<[t := make lhs]> st);
  Some (ret, delete t st').

Definition ref_add := free_binary ref_add_assign.
Definition ref_add_sr := free_binary_sr ref_add_assign.
Definition ref_add_rs := free_binary_rs ref_add_assign.
Definition ref_sub := free_binary ref_sub_assign.
Definition ref_sub_sr := free_binary_sr ref_sub_assign.
Definition ref_sub_rs := free_binary_rs ref_sub_assign.
Definition ref_mul := free_binary ref_mul_assign.
Definition ref_mul_sr := free_binary_sr ref_mul_assign.
Definition ref_mul_rs := free_binary_rs ref_mul_assign.
Definition ref_div := free_binary ref_div_assign.
Definition ref_div_sr := free_binary_sr ref_div_assign.
Definition ref_div_rs := free_binary_rs ref_div_assign.
Definition ref_mod := free_binary ref_mod_assign.
Definition ref_mod_sr := free_binary_sr ref_mod_assign.
Definition ref_mod_rs := free_binary_rs ref_mod_assign.

(** ** Object representation

    [T m_val] occupies the first [sizeof(T)] bytes (little endian, two's
    complement), [bool m_error] the byte after it, and padding fills the
    object up to the alignment of [T]. *)

Definition sizeof_T : nat := Z.to_nat (bits T / 8).
Definition sizeof_safe_integral : nat := (2 * sizeof_T)%nat.

Fixpoint le_combine (bs : list Byte.byte) : Z :=
  match bs with
  | nil => 0
  | b :: rest => Z.of_N (Byte.to_N b) + 256 * le_combine rest
  end.

Definition load (mem : list Byte.byte) : safe_integral :=
  {| m_val := wrap T (le_combine (firstn sizeof_T mem));
     m_error := negb (Byte.eqb (nth sizeof_T mem Byte.x00) Byte.x00) |}.

(** Zero-initialised storage: what static storage duration (BSS) and
    value-initialisation [safe_integral<T> x{}] hand to the constructor. *)
Definition zero_initialized : list Byte.byte :=
  repeat Byte.x00 sizeof_safe_integral.

(** [constexpr safe_integral() noexcept = default;] with no default member
    initialisers: the constructor is trivial and stores nothing. *)
Definition default_ctor (mem : list Byte.byte) : list Byte.byte := mem.

(** ** Enumerations used to state properties of whole operator families *)

Inductive arith : Set := Add | Sub | Mul | Div | Mod.

(** [a @= b], [a @= raw] on values. *)
Definition compound (o : arith) (this rhs : safe_integral) : safe_integral :=
  match o with
  | Add => op_add_assign this rhs
  | Sub => op_sub_assign this rhs
  | Mul => op_mul_assign this rhs
  | Div => value (op_div_assign this rhs)
  | Mod => value (op_mod_assign this rhs)
  end.

Definition compound_raw (o : arith) (this : safe_integral) (rhs : Z)
  : safe_integral :=
  match o with
  | Add => op_add_assign_raw this rhs
  | Sub => op_sub_assign_raw this rhs
  | Mul => op_mul_assign_raw this rhs
  | Div => value (op_div_assign_raw this rhs)
  | Mod => value (op_mod_assign_raw this rhs)
  end.

(** [a @ b], [a @ raw], [raw @ b] on values. *)
Definition binary (o : arith) (lhs rhs : safe_integral) : safe_integral :=
  match o with
  | Add => op_add lhs rhs
  | Sub => op_sub lhs rhs
  | Mul => op_mul lhs rhs
  | Div => value (op_div lhs rhs)
  | Mod => value (op_mod lhs rhs)
  end.

Definition binary_sr (o : arith) (lhs : safe_integral) (rhs : Z)
  : safe_integral :=
  match o with
  | Add => op_add_sr lhs rhs
  | Sub => op_sub_sr lhs rhs
  | Mul => op_mul_sr lhs rhs
  | Div => value (op_div_sr lhs rhs)
  | Mod => value (op_mod_sr lhs rhs)
  end.

Definition binary_rs (o : arith) (lhs : Z) (rhs : safe_integral)
  : safe_integral :=
  match o with
  | Add => op_add_rs lhs rhs
  | Sub => op_sub_rs lhs rhs
  | Mul => op_mul_rs lhs rhs
  | Div => value (op_div_rs lhs rhs)
  | Mod => value (op_mod_rs lhs rhs)
  end.

(** The same operators on references. *)
Definition ref_binary (o : arith) :=
  match o with
  | Add => ref_add | Sub => ref_sub | Mul => ref_mul
  | Div => ref_div | Mod => ref_mod
  end.

Definition ref_binary_sr (o : arith) :=
  match o with
  | Add => ref_add_sr | Sub => ref_sub_sr | Mul => ref_mul_sr
  | Div => ref_div_sr | Mod => ref_mod_sr
  end.

Definition ref_binary_rs (o : arith) :=
  match o with
  | Add => ref_add_rs | Sub => ref_sub_rs | Mul => ref_mul_rs
  | Div => ref_div_rs | Mod => ref_mod_rs
  end.

Inductive relop : Set := REq | RLt | RLe | RGt | RGe.

Definition rel (r : relop) (lhs rhs : safe_integral) : bool :=
  match r with
  | REq => op_eq lhs rhs
  | RLt => op_lt lhs rhs
  | RLe => op_le lhs rhs
  | RGt => op_gt lhs rhs
  | RGe => op_ge lhs rhs
  end.

Definition rel_sr (r : relop) (lhs : safe_integral) (rhs : Z) : bool :=
  match r with
  | REq => op_eq_sr lhs rhs
  | RLt => op_lt_sr lhs rhs
  | RLe => op_le_sr lhs rhs
  | RGt => op_gt_sr lhs rhs
  | RGe => op_ge_sr lhs rhs
  end.

Definition rel_rs (r : relop) (lhs : Z) (rhs : safe_integral) : bool :=
  match r with
  | REq => op_eq_rs lhs rhs
  | RLt => op_lt_rs lhs rhs
  | RLe => op_le_rs lhs rhs
  | RGt => op_gt_rs lhs rhs
  | RGe => op_ge_rs lhs rhs
  end.

Inductive bitop : Set := BAnd | BOr | BXor.

(** The native [&], [|], [^] of [T]. *)
Definition bit_native (o : bitop) : Z -> Z -> Z :=
  match o with BAnd => Z.land | BOr => Z.lor | BXor => Z.lxor end.

Definition bit_compound (o : bitop) (lhs rhs : safe_integral) : safe_integral :=
  match o with
  | BAnd => op_and_assign lhs rhs
  | BOr => op_or_assign lhs rhs
  | BXor => op_xor_assign lhs rhs
  end.

Definition bit_compound_raw (o : bitop) (lhs : safe_integral) (rhs : Z)
  : safe_integral :=
  match o with
  | BAnd => op_and_assign_raw lhs rhs
  | BOr => op_or_assign_raw lhs rhs
  | BXor => op_xor_assign_raw lhs rhs
  end.

Definition bit_binary (o : bitop) (lhs rhs : safe_integral) : safe_integral :=
  match o with
  | BAnd => op_and lhs rhs
  | BOr => op_or lhs rhs
  | BXor => op_xor lhs rhs
  end.

Definition bit_binary_sr (o : bitop) (lhs : safe_integral) (rhs : Z)
  : safe_integral :=
  match o with
  | BAnd => op_and_sr lhs rhs
  | BOr => op_or_sr lhs rhs
  | BXor => op_xor_sr lhs rhs
  end.

Definition bit_binary_rs (o : bitop) (lhs : Z) (rhs : safe_integral)
  : safe_integral :=
  match o with
  | BAnd => op_and_rs lhs rhs
  | BOr => op_or_rs lhs rhs
  | BXor => op_xor_rs lhs rhs
  end.

(** Every operation the header declares that changes an existing object in
    place, with its arguments; [mutate m this] is the object afterwards.
    (The implicitly generated copy assignment, which replaces the whole
    object by another one, is not an operation of the header.) *)
Inductive mutation : Set :=
| Compound (o : arith) (rhs : safe_integral)
| CompoundRaw (o : arith) (rhs : Z)
| Increment
| Decrement
| ShiftLeft (count : Z)
| ShiftRight (count : Z)
| BitCompound (o : bitop) (rhs : safe_integral)
| BitCompoundRaw (o : bitop) (rhs : Z)
| SetFailure
| AssignRaw (val : Z).

Definition mutate (m : mutation) (this : safe_integral) : safe_integral :=
  match m with
  | Compound o rhs => compound o this rhs
  | CompoundRaw o rhs => compound_raw o this rhs
  | Increment => op_inc this
  | Decrement => op_dec this
  | ShiftLeft count => op_shl_assign this count
  | ShiftRight count => op_shr_assign this count
  | BitCompound o rhs => bit_compound o this rhs
  | BitCompoundRaw o rhs => bit_compound_raw o this rhs
  | SetFailure => set_failure this
  | AssignRaw val => op_assign this val
  end.

(** The operators with a fused overflow check, and the exact
    (unbounded) result of each arithmetic operator. *)
Definition is_fused (o : arith) : bool :=
  match o with Add | Sub | Mul => true | Div | Mod => false end.

Definition exact_result (o : arith) (x y : Z) : Z :=
  match o with
  | Add => x + y
  | Sub => x - y
  | Mul => x * y
  | Div => Z.quot x y
  | Mod => Z.rem x y
  end.

Definition out_of_range (z : Z) : Prop :=
  z < numeric_limits_min T \/ numeric_limits_max T < z.

(** Conditions under which [/] and [%] must not reach the hardware. *)
Definition division_refused (a b : safe_integral) : Prop :=
  failure a = true \/ failure b = true \/ get b = 0
  \/ (is_signed_type = true /\ get a = min /\ get b = -1).

(** The operation ended poisoned, reads as zero, and executed no native
    division or modulo. *)
Definition poisoned_without_dividing (r : traced safe_integral) : Prop :=
  failure (value r) = true /\ get (value r) = 0 /\ trace r = nil.

(** ** Reads of a poisoned object *)

Lemma get_poisoned (this : safe_integral) :
  failure this = true -> get this = 0.
Proof. unfold get, failure. intros ->. reflexivity. Qed.

Lemma get_ok (this : safe_integral) :
  failure this = false -> get this = m_val this.
Proof. unfold get, failure. intros ->. reflexivity. Qed.

(** C1: a poisoned object reads as zero whatever [m_val] holds: [get]
    returns 0 and [is_zero] returns true. *)
Theorem poisoned_reads_as_zero (this : safe_integral) :
  failure this = true -> get this = 0 /\ is_zero this = true.
Proof.
  intros Hp. split; [now apply get_poisoned|].
  unfold is_zero. unfold failure in Hp. now rewrite Hp.
Qed.

(** C6: constructing from a raw value gives an unpoisoned object whose
    [get] returns that value. *)
Theorem make_round_trip (v : Z) :
  failure (make v) = false /\ get (make v) = v.
Proof. split; reflexivity. Qed.

(** ** Comparisons *)

Lemma rel_poisoned_l (r : relop) (lhs rhs : safe_integral) :
  failure lhs = true -> rel r lhs rhs = false.
Proof.
  intros H. destruct r; cbn; unfold op_eq, op_lt, op_le, op_gt, op_ge;
    rewrite H; cbn; now rewrite andb_false_r.
Qed.

Lemma rel_poisoned_r (r : relop) (lhs rhs : safe_integral) :
  failure rhs = true -> rel r lhs rhs = false.
Proof.
  intros H. destruct r; cbn; unfold op_eq, op_lt, op_le, op_gt, op_ge;
    rewrite H; cbn; now rewrite andb_false_r.
Qed.

Lemma rel_sr_poisoned (r : relop) (lhs : safe_integral) (rhs : Z) :
  failure lhs = true -> rel_sr r lhs rhs = false.
Proof.
  intros H. destruct r; cbn;
    unfold op_eq_sr, op_lt_sr, op_le_sr, op_gt_sr, op_ge_sr;
    rewrite H; cbn; now rewrite andb_false_r.
Qed.

Lemma rel_rs_poisoned (r : relop) (lhs : Z) (rhs : safe_integral) :
  failure rhs = true -> rel_rs r lhs rhs = false.
Proof.
  intros H. destruct r; cbn;
    unfold op_eq_rs, op_lt_rs, op_le_rs, op_gt_rs, op_ge_rs;
    rewrite H; cbn; now rewrite andb_false_r.
Qed.

(** C4: [==], [<], [<=], [>], [>=] are false as soon as one side is
    poisoned - whatever the other side is, in all three overloads, and
    also for a poisoned object compared with itself - while [!=] is the
    negation of [==] and is therefore true in all those cases. *)
Theorem comparison_with_poison (p x : safe_integral) (raw : Z) :
  failure p = true ->
  (forall r, rel r p x = false /\ rel r x p = false /\ rel r p p = false
             /\ rel_sr r p raw = false /\ rel_rs r raw p = false)
  /\ (op_ne p x = true /\ op_ne x p = true /\ op_ne p p = true
      /\ op_ne_sr p raw = true /\ op_ne_rs raw p = true)
  /\ (forall a b, op_ne a b = negb (op_eq a b))
  /\ (forall a v, op_ne_sr a v = negb (op_eq_sr a v))
  /\ (forall v b, op_ne_rs v b = negb (op_eq_rs v b)).
Proof.
  intros Hp. split.
  { intros r. repeat split.
    - now apply rel_poisoned_l.
    - now apply rel_poisoned_r.
    - now apply rel_poisoned_l.
    - now apply rel_sr_poisoned.
    - now apply rel_rs_poisoned. }
  split.
  { unfold op_ne, op_ne_sr, op_ne_rs.
    rewrite (rel_poisoned_l REq p x Hp : op_eq p x = false).
    rewrite (rel_poisoned_r REq x p Hp : op_eq x p = false).
    rewrite (rel_poisoned_l REq p p Hp : op_eq p p = false).
    rewrite (rel_sr_poisoned REq p raw Hp : op_eq_sr p raw = false).
    rewrite (rel_rs_poisoned REq raw p Hp : op_eq_rs raw p = false).
    repeat split. }
  repeat split.
Qed.

(** C10: a poisoned object is neither [is_min] nor [is_max], also when
    [m_val] holds the minimum or the maximum of [T]. *)
Theorem poisoned_is_not_extremum (this : safe_integral) :
  failure this = true ->
  is_min this = false /\ is_max this = false
  /\ is_min (make_err min true) = false
  /\ is_max (make_err max true) = false.
Proof.
  intros Hp. unfold is_min, is_max. repeat split.
  - now apply (rel_rs_poisoned REq).
  - now apply (rel_rs_poisoned REq).
  - now apply (rel_rs_poisoned REq).
  - now apply (rel_rs_poisoned REq).
Qed.

(** ** Range arithmetic *)

Lemma wrap_representable (z : Z) :
  representable T z = true -> wrap T z = z.
Proof.
  unfold representable, wrap, numeric_limits_min, numeric_limits_max, bits.
  destruct T as [[] []]; cbn; intros H;
    apply andb_true_iff in H; destruct H as [H1 H2];
    apply Z.leb_le in H1; apply Z.leb_le in H2;
    try (rewrite Z.mod_small by lia; lia);
    apply Z.mod_small; lia.
Qed.

Lemma representable_wrap (z : Z) : representable T (wrap T z) = true.
Proof.
  unfold representable, wrap, numeric_limits_min, numeric_limits_max, bits.
  apply andb_true_iff.
  destruct T as [[] []]; cbn; split; apply Z.leb_le;
    match goal with
    | |- context [?a mod ?m] =>
        pose proof (Z.mod_pos_bound a m ltac:(lia)); lia
    end.
Qed.

Lemma minus_one_signed :
  is_signed_type = true ->
  representable T (-1) = true /\ wrap T (-1) = -1.
Proof.
  unfold is_signed_type. destruct T as [[] []]; cbn; intros H;
    try discriminate; split; reflexivity.
Qed.

(** ** The overflow primitives *)

Lemma builtin_add_overflow_exact (lhs rhs : Z) :
  BSL_PERFORCE = false ->
  builtin_add_overflow lhs rhs = compiler_builtin_overflow (lhs + rhs).
Proof.
  intros Hb. unfold builtin_add_overflow, compiler_builtin_overflow.
  rewrite Hb. destruct is_constant_evaluated; [|reflexivity].
  now destruct (negb (representable T (lhs + rhs))).
Qed.

Lemma builtin_sub_overflow_exact (lhs rhs : Z) :
  BSL_PERFORCE = false ->
  builtin_sub_overflow lhs rhs = compiler_builtin_overflow (lhs - rhs).
Proof.
  intros Hb. unfold builtin_sub_overflow, compiler_builtin_overflow.
  rewrite Hb. destruct is_constant_evaluated; [|reflexivity].
  now destruct (negb (representable T (lhs - rhs))).
Qed.

Lemma builtin_mul_overflow_exact (lhs rhs : Z) :
  BSL_PERFORCE = false ->
  builtin_mul_overflow lhs rhs = compiler_builtin_overflow (lhs * rhs).
Proof.
  intros Hb. unfold builtin_mul_overflow, compiler_builtin_overflow.
  rewrite Hb. destruct is_constant_evaluated; [|reflexivity].
  now destruct (negb (representable T (lhs * rhs))).
Qed.


(** The stored result is always a value of [T]. *)
Lemma builtin_add_overflow_in_range (lhs rhs : Z) :
  representable T (fst (builtin_add_overflow lhs rhs)) = true.
Proof.
  unfold builtin_add_overflow, compiler_builtin_overflow.
  destruct BSL_PERFORCE; [apply representable_wrap|].
  destruct is_constant_evaluated; [|apply representable_wrap].
  destruct (negb (representable T (lhs + rhs))); apply representable_wrap.
Qed.

(** ** Poison is sticky *)

Lemma failure_add_assign (this rhs : safe_integral) :
  failure (op_add_assign this rhs)
  = failure this || (snd (builtin_add_overflow (m_val this) (m_val rhs))
                     || failure rhs).
Proof.
  unfold op_add_assign.
  now destruct (builtin_add_overflow (m_val this) (m_val rhs)).
Qed.

Lemma failure_sub_assign (this rhs : safe_integral) :
  failure (op_sub_assign this rhs)
  = failure this || (snd (builtin_sub_overflow (m_val this) (m_val rhs))
                     || failure rhs).
Proof.
  unfold op_sub_assign.
  now destruct (builtin_sub_overflow (m_val this) (m_val rhs)).
Qed.

Lemma failure_mul_assign (this rhs : safe_integral) :
  failure (op_mul_assign this rhs)
  = failure this || (snd (builtin_mul_overflow (m_val this) (m_val rhs))
                     || failure rhs).
Proof.
  unfold op_mul_assign.
  now destruct (builtin_mul_overflow (m_val this) (m_val rhs)).
Qed.

Lemma failure_add_assign_raw (this : safe_integral) (rhs : Z) :
  failure (op_add_assign_raw this rhs)
  = failure this || snd (builtin_add_overflow (m_val this) rhs).
Proof.
  unfold op_add_assign_raw.
  now destruct (builtin_add_overflow (m_val this) rhs).
Qed.

Lemma failure_sub_assign_raw (this : safe_integral) (rhs : Z) :
  failure (op_sub_assign_raw this rhs)
  = failure this || snd (builtin_sub_overflow (m_val this) rhs).
Proof.
  unfold op_sub_assign_raw.
  now destruct (builtin_sub_overflow (m_val this) rhs).
Qed.

Lemma failure_mul_assign_raw (this : safe_integral) (rhs : Z) :
  failure (op_mul_assign_raw this rhs)
  = failure this || snd (builtin_mul_overflow (m_val this) rhs).
Proof.
  unfold op_mul_assign_raw.
  now destruct (builtin_mul_overflow (m_val this) rhs).
Qed.

Lemma div_assign_poisoned (this rhs : safe_integral) :
  failure this = true \/ failure rhs = true ->
  op_div_assign this rhs = skip {| m_val := m_val this; m_error := true |}.
Proof.
  intros H. unfold op_div_assign.
  replace (failure this || failure rhs) with true; [reflexivity|].
  symmetry. apply orb_true_iff. exact H.
Qed.

Lemma mod_assign_poisoned (this rhs : safe_integral) :
  failure this = true \/ failure rhs = true ->
  op_mod_assign this rhs = skip {| m_val := m_val this; m_error := true |}.
Proof.
  intros H. unfold op_mod_assign.
  replace (failure this || failure rhs) with true; [reflexivity|].
  symmetry. apply orb_true_iff. exact H.
Qed.

Lemma compound_poisoned (o : arith) (this rhs : safe_integral) :
  failure this = true \/ failure rhs = true ->
  failure (compound o this rhs) = true.
Proof.
  intros H. destruct o; cbn.
  - rewrite failure_add_assign. destruct H as [-> | ->];
      [reflexivity | now rewrite !orb_true_r].
  - rewrite failure_sub_assign. destruct H as [-> | ->];
      [reflexivity | now rewrite !orb_true_r].
  - rewrite failure_mul_assign. destruct H as [-> | ->];
      [reflexivity | now rewrite !orb_true_r].
  - now rewrite div_assign_poisoned.
  - now rewrite mod_assign_poisoned.
Qed.

Lemma compound_raw_poisoned (o : arith) (this : safe_integral) (rhs : Z) :
  failure this = true -> failure (compound_raw o this rhs) = true.
Proof.
  intros H. destruct o; cbn.
  - rewrite failure_add_assign_raw. now rewrite H.
  - rewrite failure_sub_assign_raw. now rewrite H.
  - rewrite failure_mul_assign_raw. now rewrite H.
  - unfold op_div_assign_raw. rewrite div_assign_poisoned; auto.
  - unfold op_mod_assign_raw. rewrite mod_assign_poisoned; auto.
Qed.

Lemma binary_is_compound (o : arith) (lhs rhs : safe_integral) :
  binary o lhs rhs = compound o lhs rhs.
Proof. now destruct o. Qed.

Lemma binary_sr_is_compound (o : arith) (lhs : safe_integral) (rhs : Z) :
  binary_sr o lhs rhs = compound o lhs (make rhs).
Proof. now destruct o. Qed.

Lemma binary_rs_is_compound (o : arith) (lhs : Z) (rhs : safe_integral) :
  binary_rs o lhs rhs = compound o (make lhs) rhs.
Proof. now destruct o. Qed.

Lemma inc_dec_poisoned (this : safe_integral) :
  failure this = true ->
  failure (op_inc this) = true /\ failure (op_dec this) = true.
Proof.
  intros H. unfold op_inc, op_dec.
  destruct (builtin_add_overflow (m_val this) (get (one false))).
  destruct (builtin_sub_overflow (m_val this) (get (one false))).
  cbn. unfold failure in H. now rewrite H.
Qed.

Lemma mutate_keeps_poison (m : mutation) (this : safe_integral) :
  failure this = true ->
  (forall v, m <> AssignRaw v) ->
  failure (mutate m this) = true.
Proof.
  intros H Hm. destruct m as [o rhs|o rhs| | | | |o rhs|o rhs| |v]; cbn.
  - apply compound_poisoned; auto.
  - now apply compound_raw_poisoned.
  - now apply inc_dec_poisoned.
  - now apply inc_dec_poisoned.
  - exact H.
  - exact H.
  - destruct o; cbn; now rewrite H.
  - destruct o; cbn; exact H.
  - reflexivity.
  - now destruct (Hm v).
Qed.

(** C2: every arithmetic operator, in every form, returns a poisoned
    result when an operand is poisoned; no in-place operation of the
    header clears the flag of a poisoned object except assignment from a
    raw value, which does. *)
Theorem poison_is_sticky (a b : safe_integral) (raw : Z) (m : mutation) :
  failure a = true ->
  (forall o, failure (compound o a b) = true
             /\ failure (compound o b a) = true
             /\ failure (compound_raw o a raw) = true
             /\ failure (binary o a b) = true
             /\ failure (binary o b a) = true
             /\ failure (binary_sr o a raw) = true
             /\ failure (binary_rs o raw a) = true)
  /\ failure (op_inc a) = true
  /\ failure (op_dec a) = true
  /\ (failure (mutate m a) = false <-> exists v, m = AssignRaw v)
  /\ failure (op_assign a raw) = false.
Proof.
  intros Ha. split.
  { intros o.
    rewrite (binary_is_compound o a b), (binary_is_compound o b a),
      (binary_sr_is_compound o a raw), (binary_rs_is_compound o raw a).
    repeat split; try (apply compound_poisoned; auto).
    now apply compound_raw_poisoned. }
  split; [now apply inc_dec_poisoned|].
  split; [now apply inc_dec_poisoned|].
  split; [|reflexivity].
  split.
  - intros Hclear.
    destruct m as [o rhs|o rhs| | | | |o rhs|o rhs| |v];
      [.. | now exists v];
      match type of Hclear with
      | failure (mutate ?op a) = false =>
          assert (Hkept : failure (mutate op a) = true)
            by (apply mutate_keeps_poison;
                [exact Ha | intros v; discriminate]);
          rewrite Hkept in Hclear; discriminate
      end.
  - intros [v ->]. reflexivity.
Qed.

(** ** Exactness of the overflow check *)

Lemma representable_false_iff (z : Z) :
  representable T z = false <-> out_of_range z.
Proof.
  unfold representable, out_of_range. rewrite andb_false_iff.
  rewrite !Z.leb_gt. reflexivity.
Qed.

Lemma compound_fused_exact (o : arith) (a b : safe_integral) :
  BSL_PERFORCE = false -> is_fused o = true ->
  failure a = false -> failure b = false ->
  compound o a b
  = {| m_val := wrap T (exact_result o (m_val a) (m_val b));
       m_error := negb (representable T
                          (exact_result o (m_val a) (m_val b))) |}.
Proof.
  intros Hb Ho Ha Hb'. unfold failure in Ha, Hb'.
  destruct o; try discriminate; cbn;
    unfold op_add_assign, op_sub_assign, op_mul_assign, failure.
  - rewrite builtin_add_overflow_exact by exact Hb.
    cbn. now rewrite Ha, Hb', orb_false_r.
  - rewrite builtin_sub_overflow_exact by exact Hb.
    cbn. now rewrite Ha, Hb', orb_false_r.
  - rewrite builtin_mul_overflow_exact by exact Hb.
    cbn. now rewrite Ha, Hb', orb_false_r.
Qed.

Lemma compound_raw_is_compound (o : arith) (a : safe_integral) (raw : Z) :
  compound_raw o a raw = compound o a (make raw).
Proof.
  destruct o; cbn; try reflexivity;
    unfold op_add_assign_raw, op_add_assign, op_sub_assign_raw,
      op_sub_assign, op_mul_assign_raw, op_mul_assign; cbn.
  - destruct (builtin_add_overflow (m_val a) raw).
    now rewrite orb_false_r.
  - destruct (builtin_sub_overflow (m_val a) raw).
    now rewrite orb_false_r.
  - destruct (builtin_mul_overflow (m_val a) raw).
    now rewrite orb_false_r.
Qed.

Lemma fused_poisons_iff (o : arith) (a b : safe_integral) :
  BSL_PERFORCE = false -> is_fused o = true ->
  failure a = false -> failure b = false ->
  failure (compound o a b) = true
  <-> out_of_range (exact_result o (m_val a) (m_val b)).
Proof.
  intros Hb Ho Ha Hb'. rewrite (compound_fused_exact o a b Hb Ho Ha Hb').
  cbn. rewrite negb_true_iff. apply representable_false_iff.
Qed.

(** In range, the result reads as the exact result. *)
Lemma fused_in_range (o : arith) (a b : safe_integral) :
  BSL_PERFORCE = false -> is_fused o = true ->
  failure a = false -> failure b = false ->
  representable T (exact_result o (m_val a) (m_val b)) = true ->
  compound o a b = make (exact_result o (m_val a) (m_val b)).
Proof.
  intros Hb Ho Ha Hb' Hr. rewrite (compound_fused_exact o a b Hb Ho Ha Hb').
  rewrite Hr. now rewrite wrap_representable by exact Hr.
Qed.

Lemma inc_is_add_one (a : safe_integral) :
  op_inc a = op_add_assign_raw a 1.
Proof. reflexivity. Qed.

Lemma dec_is_sub_one (a : safe_integral) :
  op_dec a = op_sub_assign_raw a 1.
Proof. reflexivity. Qed.

(** ** Division and modulo *)

Lemma neg_one :
  BSL_PERFORCE = false -> is_signed_type = true ->
  op_neg (one false) = make (-1).
Proof.
  intros Hb Hs. unfold op_neg, op_sub, op_sub_assign. cbn.
  rewrite builtin_sub_overflow_exact by exact Hb.
  unfold compiler_builtin_overflow. change (0 - 1) with (-1).
  destruct (minus_one_signed Hs) as [-> ->]. reflexivity.
Qed.


Lemma skip_poisoned_without_dividing (v : Z) :
  poisoned_without_dividing (skip {| m_val := v; m_error := true |}).
Proof. repeat split. Qed.

Lemma div_assign_refused (a b : safe_integral) :
  BSL_PERFORCE = false -> division_refused a b ->
  poisoned_without_dividing (op_div_assign a b).
Proof.
  intros Hb Hg.
  destruct (failure a) eqn:Ea;
    [rewrite div_assign_poisoned by auto;
     apply skip_poisoned_without_dividing|].
  destruct (failure b) eqn:Eb;
    [rewrite div_assign_poisoned by auto;
     apply skip_poisoned_without_dividing|].
  unfold op_div_assign. rewrite Ea, Eb. cbn [orb].
  destruct (op_eq (zero false) b) eqn:Ez;
    [apply skip_poisoned_without_dividing|].
  destruct Hg as [Hg|[Hg|[Hg|(Hs & Hmin & Hm1)]]]; try congruence.
  - unfold op_eq in Ez. rewrite Eb, Hg in Ez. discriminate.
  - rewrite (get_ok a Ea) in Hmin. rewrite neg_one by assumption.
    unfold op_eq. rewrite Hs, Hmin, Hm1, Eb, Z.eqb_refl. cbn.
    apply skip_poisoned_without_dividing.
Qed.

Lemma mod_assign_refused (a b : safe_integral) :
  BSL_PERFORCE = false -> division_refused a b ->
  poisoned_without_dividing (op_mod_assign a b).
Proof.
  intros Hb Hg.
  destruct (failure a) eqn:Ea;
    [rewrite mod_assign_poisoned by auto;
     apply skip_poisoned_without_dividing|].
  destruct (failure b) eqn:Eb;
    [rewrite mod_assign_poisoned by auto;
     apply skip_poisoned_without_dividing|].
  unfold op_mod_assign. rewrite Ea, Eb. cbn [orb].
  destruct (op_eq (zero false) b) eqn:Ez;
    [apply skip_poisoned_without_dividing|].
  destruct Hg as [Hg|[Hg|[Hg|(Hs & Hmin & Hm1)]]]; try congruence.
  - unfold op_eq in Ez. rewrite Eb, Hg in Ez. discriminate.
  - rewrite (get_ok a Ea) in Hmin. rewrite (get_ok b Eb) in Hm1.
    rewrite neg_one by assumption.
    unfold op_eq_sr. rewrite Hs, Hmin, Hm1, Z.eqb_refl. cbn.
    apply skip_poisoned_without_dividing.
Qed.

(** C3: [/=], [%=], [/] and [%], in every overload, end poisoned with
    [get] equal to 0 and without executing the native operation when an
    operand is poisoned, when the divisor is zero, or when [T] is signed
    and the operands are [min] and [-1].  (The [min / -1] guard compares
    against [-one()], which is computed with the fused subtraction:
    hence the build hypothesis.) *)
Theorem division_guards (a b : safe_integral) (raw : Z) :
  BSL_PERFORCE = false ->
  (division_refused a b ->
     poisoned_without_dividing (op_div_assign a b)
     /\ poisoned_without_dividing (op_mod_assign a b)
     /\ poisoned_without_dividing (op_div a b)
     /\ poisoned_without_dividing (op_mod a b))
  /\ (division_refused a (make raw) ->
        poisoned_without_dividing (op_div_assign_raw a raw)
        /\ poisoned_without_dividing (op_mod_assign_raw a raw)
        /\ poisoned_without_dividing (op_div_sr a raw)
        /\ poisoned_without_dividing (op_mod_sr a raw))
  /\ (division_refused (make raw) b ->
        poisoned_without_dividing (op_div_rs raw b)
        /\ poisoned_without_dividing (op_mod_rs raw b)).
Proof.
  intros Hb. split; [|split]; intros Hg.
  - split; [exact (div_assign_refused a b Hb Hg)|].
    split; [exact (mod_assign_refused a b Hb Hg)|].
    split; [exact (div_assign_refused a b Hb Hg)|].
    exact (mod_assign_refused a b Hb Hg).
  - split; [exact (div_assign_refused a (make raw) Hb Hg)|].
    split; [exact (mod_assign_refused a (make raw) Hb Hg)|].
    split; [exact (div_assign_refused a (make raw) Hb Hg)|].
    exact (mod_assign_refused a (make raw) Hb Hg).
  - split; [exact (div_assign_refused (make raw) b Hb Hg)|].
    exact (mod_assign_refused (make raw) b Hb Hg).
Qed.

(** ** When the native division does run

    The guards above are the only thing between the operands and the
    hardware: with them, every native [/] or [%] that is executed is
    defined, and its result is the truncated quotient or remainder. *)

Lemma quot_half (x y : Z) :
  2 <= Z.abs y -> 2 * Z.abs (Z.quot x y) <= Z.abs x.
Proof.
  intros Hy. assert (y <> 0) as Hy0 by lia.
  rewrite <- Z.quot_abs by exact Hy0.
  pose proof (Z.mul_quot_le (Z.abs x) (Z.abs y) ltac:(lia) ltac:(lia)).
  pose proof (Z.quot_pos (Z.abs x) (Z.abs y) ltac:(lia) ltac:(lia)).
  nia.
Qed.

Lemma quot_cases (x y : Z) :
  y <> 0 ->
  (y = 1 /\ Z.quot x y = x) \/ (y = -1 /\ Z.quot x y = - x)
  \/ (2 <= Z.abs y /\ 2 * Z.abs (Z.quot x y) <= Z.abs x).
Proof.
  intros Hy.
  destruct (Z.eq_dec y 1) as [->|H1];
    [left; split; [reflexivity | apply Z.quot_1_r]|].
  destruct (Z.eq_dec y (-1)) as [->|H2].
  - right; left; split; [reflexivity|].
    change (-1) with (- (1)). rewrite Z.quot_opp_r by lia.
    now rewrite Z.quot_1_r.
  - right; right. assert (2 <= Z.abs y) by lia.
    split; [assumption | now apply quot_half].
Qed.

Lemma rem_between (x y : Z) :
  y <> 0 -> (0 <= Z.rem x y <= x) \/ (x <= Z.rem x y <= 0).
Proof.
  intros Hy. pose proof (Z.quot_rem' x y) as E.
  destruct (Z.le_gt_cases 0 x) as [Hx|Hx].
  - left. pose proof (Z.mul_quot_le x y Hx Hy).
    pose proof (Z.rem_nonneg x y Hy Hx). lia.
  - right. pose proof (Z.mul_quot_ge x y ltac:(lia) Hy).
    pose proof (Z.rem_nonpos x y Hy ltac:(lia)). lia.
Qed.

Lemma quot_representable (x y : Z) :
  representable T x = true -> representable T y = true ->
  y <> 0 -> ~ (is_signed_type = true /\ x = min /\ y = -1) ->
  representable T (Z.quot x y) = true.
Proof.
  unfold representable, is_signed_type, min, numeric_limits_min,
    numeric_limits_max, bits.
  intros Hx Hy Hy0 Hguard.
  apply andb_true_iff in Hx, Hy. destruct Hx as [Hx1 Hx2], Hy as [Hy1 Hy2].
  apply Z.leb_le in Hx1, Hx2, Hy1, Hy2.
  apply andb_true_iff. rewrite !Z.leb_le.
  destruct (quot_cases x y Hy0) as [[-> ->]|[[-> ->]|[Hy' Hq]]];
    destruct T as [[] []]; cbn in *; try lia;
    try (assert (x <> -128) by (intros ->; apply Hguard; auto); lia);
    try (assert (x <> -32768) by (intros ->; apply Hguard; auto); lia);
    try (assert (x <> -2147483648) by (intros ->; apply Hguard; auto); lia);
    try (assert (x <> -9223372036854775808)
           by (intros ->; apply Hguard; auto); lia);
    pose proof (Z.quot_pos x y ltac:(lia) ltac:(lia)); lia.
Qed.

Lemma rem_representable (x y : Z) :
  representable T x = true -> y <> 0 ->
  representable T (Z.rem x y) = true.
Proof.
  unfold representable, numeric_limits_min, numeric_limits_max, bits.
  intros Hx Hy0. apply andb_true_iff in Hx. destruct Hx as [Hx1 Hx2].
  apply Z.leb_le in Hx1, Hx2. apply andb_true_iff. rewrite !Z.leb_le.
  destruct (rem_between x y Hy0); destruct T as [[] []]; cbn in *; lia.
Qed.

(** Division that passes the guards: the native [/] runs once, on operands
    for which it is defined, and the object holds the truncated quotient. *)
Lemma div_assign_runs (a b : safe_integral) :
  BSL_PERFORCE = false ->
  representable T (m_val a) = true -> representable T (m_val b) = true ->
  ~ division_refused a b ->
  op_div_assign a b
  = (make (Z.quot (m_val a) (m_val b)), NativeDiv (m_val a) (m_val b) :: nil)
  /\ native_defined (m_val a) (m_val b) = true.
Proof.
  intros Hb Hra Hrb Hfree.
  destruct (failure a) eqn:Ea; [destruct Hfree; left; exact Ea|].
  destruct (failure b) eqn:Eb; [destruct Hfree; right; left; exact Eb|].
  assert (Hb0 : m_val b <> 0).
  { intros H0. apply Hfree. right; right; left. now rewrite (get_ok b Eb). }
  assert (Hmin : ~ (is_signed_type = true /\ m_val a = min /\ m_val b = -1)).
  { intros (Hs & Hm & H1). apply Hfree. right; right; right.
    now rewrite (get_ok a Ea), (get_ok b Eb). }
  pose proof (quot_representable _ _ Hra Hrb Hb0 Hmin) as Hq.
  split.
  - unfold op_div_assign. rewrite Ea, Eb. cbn [orb].
    replace (op_eq (zero false) b) with false.
    2:{ symmetry. unfold op_eq. rewrite (get_ok b Eb), Eb.
        change (get (zero false)) with 0. cbn [failure zero make_err m_error negb].
        rewrite !andb_true_r. apply Z.eqb_neq. congruence. }
    replace (is_signed_type
             && ((min =? m_val a) && op_eq (op_neg (one false)) b))
      with false.
    2:{ symmetry. destruct is_signed_type eqn:Hs; [|reflexivity].
        rewrite neg_one by assumption. unfold op_eq.
        rewrite (get_ok b Eb), Eb. change (get (make (-1))) with (-1).
        cbn [failure make m_error negb andb]. rewrite !andb_true_r.
        apply andb_false_iff.
        destruct (Z.eq_dec min (m_val a)) as [E1|E1];
          [|left; now apply Z.eqb_neq].
        right. apply Z.eqb_neq. intros E2. apply Hmin. auto. }
    unfold native_div, make. rewrite wrap_representable by exact Hq.
    unfold failure in Ea. now rewrite Ea.
  - unfold native_defined. rewrite Hq.
    apply andb_true_iff. split; [|reflexivity].
    apply negb_true_iff. now apply Z.eqb_neq.
Qed.

Lemma mod_assign_runs (a b : safe_integral) :
  BSL_PERFORCE = false ->
  representable T (m_val a) = true -> representable T (m_val b) = true ->
  ~ division_refused a b ->
  op_mod_assign a b
  = (make (Z.rem (m_val a) (m_val b)), NativeMod (m_val a) (m_val b) :: nil)
  /\ native_defined (m_val a) (m_val b) = true.
Proof.
  intros Hb Hra Hrb Hfree.
  destruct (failure a) eqn:Ea; [destruct Hfree; left; exact Ea|].
  destruct (failure b) eqn:Eb; [destruct Hfree; right; left; exact Eb|].
  assert (Hb0 : m_val b <> 0).
  { intros H0. apply Hfree. right; right; left. now rewrite (get_ok b Eb). }
  assert (Hmin : ~ (is_signed_type = true /\ m_val a = min /\ m_val b = -1)).
  { intros (Hs & Hm & H1). apply Hfree. right; right; right.
    now rewrite (get_ok a Ea), (get_ok b Eb). }
  pose proof (quot_representable _ _ Hra Hrb Hb0 Hmin) as Hq.
  pose proof (rem_representable _ _ Hra Hb0) as Hr.
  split.
  - unfold op_mod_assign. rewrite Ea, Eb. cbn [orb].
    replace (op_eq (zero false) b) with false.
    2:{ symmetry. unfold op_eq. rewrite (get_ok b Eb), Eb.
        change (get (zero false)) with 0. cbn [failure zero make_err m_error negb].
        rewrite !andb_true_r. apply Z.eqb_neq. congruence. }
    replace (is_signed_type
             && ((min =? m_val a)
                 && op_eq_sr (op_neg (one false)) (m_val b)))
      with false.
    2:{ symmetry. destruct is_signed_type eqn:Hs; [|reflexivity].
        rewrite neg_one by assumption. unfold op_eq_sr.
        change (get (make (-1))) with (-1).
        cbn [failure make m_error negb andb]. rewrite !andb_true_r.
        apply andb_false_iff.
        destruct (Z.eq_dec min (m_val a)) as [E1|E1];
          [|left; now apply Z.eqb_neq].
        right. apply Z.eqb_neq. intros E2. apply Hmin. auto. }
    unfold native_mod, make. rewrite wrap_representable by exact Hr.
    unfold failure in Ea. now rewrite Ea.
  - unfold native_defined. rewrite Hq.
    apply andb_true_iff. split; [|reflexivity].
    apply negb_true_iff. now apply Z.eqb_neq.
Qed.

(** ** Bitwise operators *)

Lemma bit_native_mod (o : bitop) (x y n : Z) :
  0 <= n ->
  bit_native o (x mod 2 ^ n) (y mod 2 ^ n) = bit_native o x y mod 2 ^ n.
Proof.
  intros Hn. apply Z.bits_inj'. intros i Hi.
  destruct o; cbn;
    rewrite ?Z.land_spec, ?Z.lor_spec, ?Z.lxor_spec,
      !Z.testbit_mod_pow2, ?Z.land_spec, ?Z.lor_spec, ?Z.lxor_spec
      by assumption;
    destruct (i <? n), (Z.testbit x i), (Z.testbit y i); reflexivity.
Qed.

Lemma representable_unsigned (z : Z) :
  is_unsigned_type = true ->
  representable T z = true <-> z mod 2 ^ bits T = z.
Proof.
  unfold is_unsigned_type, representable, numeric_limits_min,
    numeric_limits_max, bits.
  destruct (signed T); [discriminate|]. intros _.
  assert (0 < 2 ^ bits_of (int_width T)) by (destruct (int_width T); cbn; lia).
  rewrite andb_true_iff, !Z.leb_le. split.
  - intros [H1 H2]. apply Z.mod_small. lia.
  - intros <-.
    pose proof (Z.mod_pos_bound z (2 ^ bits_of (int_width T)) ltac:(lia)).
    lia.
Qed.

(** On values of an unsigned [T] the three operations stay in [T], so
    storing the result changes nothing. *)
Lemma bit_native_representable (o : bitop) (x y : Z) :
  is_unsigned_type = true ->
  representable T x = true -> representable T y = true ->
  representable T (bit_native o x y) = true
  /\ wrap T (bit_native o x y) = bit_native o x y.
Proof.
  intros Hu Hx Hy.
  assert (Hr : representable T (bit_native o x y) = true).
  { apply (representable_unsigned _ Hu).
    apply (representable_unsigned _ Hu) in Hx, Hy.
    rewrite <- Hx, <- Hy at 2.
    symmetry. apply bit_native_mod.
    unfold bits. destruct (int_width T); cbn; lia. }
  split; [exact Hr | now apply wrap_representable].
Qed.

Lemma get_representable (a : safe_integral) :
  representable T (m_val a) = true -> representable T (get a) = true.
Proof.
  unfold get. destruct (m_error a); [|easy]. intros _.
  unfold representable, numeric_limits_min, numeric_limits_max, bits.
  now destruct T as [[] []].
Qed.

(** C7: for unsigned [T], each of [&], [|], [^] (compound and free, all
    overloads) always computes the native operation on the effective
    values of its operands, and the result is poisoned exactly when one
    of the operands is - a raw operand never is. *)
Theorem bitwise_poison_or (o : bitop) (a b : safe_integral) (raw : Z) :
  is_unsigned_type = true ->
  representable T (m_val a) = true ->
  representable T (m_val b) = true ->
  representable T raw = true ->
  (failure (bit_compound o a b) = failure a || failure b
   /\ m_val (bit_compound o a b) = bit_native o (get a) (get b))
  /\ (failure (bit_binary o a b) = failure a || failure b
      /\ m_val (bit_binary o a b) = bit_native o (get a) (get b))
  /\ (failure (bit_compound_raw o a raw) = failure a
      /\ m_val (bit_compound_raw o a raw) = bit_native o (get a) raw)
  /\ (failure (bit_binary_sr o a raw) = failure a
      /\ m_val (bit_binary_sr o a raw) = bit_native o (get a) raw)
  /\ (failure (bit_binary_rs o raw b) = failure b
      /\ m_val (bit_binary_rs o raw b) = bit_native o raw (get b)).
Proof.
  intros Hu Ha Hb Hraw.
  apply get_representable in Ha, Hb.
  destruct (bit_native_representable o _ _ Hu Ha Hb) as [_ Hab].
  destruct (bit_native_representable o _ _ Hu Ha Hraw) as [_ Har].
  destruct (bit_native_representable o _ _ Hu Hraw Hb) as [_ Hrb].
  destruct o; cbn in *;
    unfold op_and_sr, op_or_sr, op_xor_sr, op_and_rs, op_or_rs, op_xor_rs,
      op_and, op_or, op_xor, op_and_assign, op_or_assign, op_xor_assign,
      op_and_assign_raw, op_or_assign_raw, op_xor_assign_raw; cbn;
    rewrite ?orb_false_r, ?Hab, ?Har, ?Hrb; repeat split.
Qed.

(** ** Free operators leave their operands alone *)

Lemma fresh_unused (st : gmap nat safe_integral) :
  st !! fresh (dom st) = None.
Proof. apply not_elem_of_dom. apply is_fresh. Qed.

Lemma free_binary_frame
    (step : safe_integral -> safe_integral -> safe_integral)
    (st : gmap nat safe_integral) (lhs rhs : nat) (a b : safe_integral) :
  st !! lhs = Some a -> st !! rhs = Some b ->
  free_binary (member_compound step) lhs rhs st = Some (step a b, st).
Proof.
  intros Hl Hr. unfold free_binary, member_compound.
  pose proof (fresh_unused st) as Hfresh.
  set (tmp := fresh (dom st)) in *.
  assert (tmp <> rhs) as Hne by congruence.
  rewrite Hl. cbn.
  rewrite lookup_insert_eq. cbn.
  rewrite lookup_insert_ne by exact Hne. rewrite Hr. cbn.
  rewrite insert_insert_eq, lookup_insert_eq. cbn.
  now rewrite delete_insert_id by exact Hfresh.
Qed.

Lemma free_binary_sr_frame
    (step : safe_integral -> safe_integral -> safe_integral)
    (st : gmap nat safe_integral) (lhs : nat) (a : safe_integral) (raw : Z) :
  st !! lhs = Some a ->
  free_binary_sr (member_compound step) lhs raw st
  = Some (step a (make raw), st).
Proof.
  intros Hl. unfold free_binary_sr.
  pose proof (fresh_unused st) as Hfresh.
  set (t := fresh (dom st)) in *.
  assert (t <> lhs) as Hne by congruence.
  rewrite (free_binary_frame step _ lhs t a (make raw)).
  - cbn. now rewrite delete_insert_id by exact Hfresh.
  - now rewrite lookup_insert_ne by exact Hne.
  - apply lookup_insert_eq.
Qed.

Lemma free_binary_rs_frame
    (step : safe_integral -> safe_integral -> safe_integral)
    (st : gmap nat safe_integral) (rhs : nat) (b : safe_integral) (raw : Z) :
  st !! rhs = Some b ->
  free_binary_rs (member_compound step) raw rhs st
  = Some (step (make raw) b, st).
Proof.
  intros Hr. unfold free_binary_rs.
  pose proof (fresh_unused st) as Hfresh.
  set (t := fresh (dom st)) in *.
  assert (t <> rhs) as Hne by congruence.
  rewrite (free_binary_frame step _ t rhs (make raw) b).
  - cbn. now rewrite delete_insert_id by exact Hfresh.
  - apply lookup_insert_eq.
  - now rewrite lookup_insert_ne by exact Hne.
Qed.

(** In contrast, the compound form overwrites its left operand. *)
Lemma member_compound_writes
    (step : safe_integral -> safe_integral -> safe_integral)
    (st : gmap nat safe_integral) (this rhs : nat) (a b : safe_integral) :
  st !! this = Some a -> st !! rhs = Some b ->
  member_compound step this rhs st = Some (this, <[this := step a b]> st).
Proof. intros Hl Hr. unfold member_compound. now rewrite Hl, Hr. Qed.

(** C8: each binary free operator ([+ - * / %], with two safe integrals
    or with a raw operand on either side) returns what the compound
    operator gives on a copy of its left operand, and the store - hence
    both operands, value and flag - is the same afterwards; [lhs] and
    [rhs] may be the same object. *)
Theorem free_operators_preserve_operands
    (o : arith) (st : gmap nat safe_integral) (lhs rhs : nat)
    (a b : safe_integral) (raw : Z) :
  st !! lhs = Some a -> st !! rhs = Some b ->
  ref_binary o lhs rhs st = Some (compound o a b, st)
  /\ ref_binary_sr o lhs raw st = Some (compound_raw o a raw, st)
  /\ ref_binary_rs o raw rhs st = Some (compound o (make raw) b, st)
  /\ binary o a b = compound o a b
  /\ binary_sr o a raw = compound_raw o a raw
  /\ binary_rs o raw b = compound o (make raw) b.
Proof.
  intros Hl Hr.
  split; [destruct o; now apply free_binary_frame|].
  split; [rewrite compound_raw_is_compound;
          destruct o; now apply free_binary_sr_frame|].
  split; [destruct o; now apply free_binary_rs_frame|].
  split; [apply binary_is_compound|].
  split; [|apply binary_rs_is_compound].
  rewrite compound_raw_is_compound. apply binary_sr_is_compound.
Qed.

(** ** Default construction *)

Lemma le_combine_zeros (k n : nat) :
  le_combine (firstn k (repeat Byte.x00 n)) = 0.
Proof.
  revert n. induction k as [|k IH]; intros [|n]; cbn; try reflexivity.
  now rewrite IH.
Qed.

Lemma nth_zeros (k n : nat) : nth k (repeat Byte.x00 n) Byte.x00 = Byte.x00.
Proof.
  revert n. induction k as [|k IH]; intros [|n]; cbn; try reflexivity.
  apply IH.
Qed.

Lemma wrap_zero : wrap T 0 = 0.
Proof. unfold wrap, bits. now destruct T as [[] []]. Qed.

(** C9: the defaulted constructor stores nothing, and the all-zero object
    representation it is given by value-initialisation or static storage
    is the object with value 0 and no error. *)
Theorem default_construction_is_zero :
  (forall mem, default_ctor mem = mem)
  /\ load (default_ctor zero_initialized) = {| m_val := 0; m_error := false |}
  /\ get (load (default_ctor zero_initialized)) = 0
  /\ failure (load (default_ctor zero_initialized)) = false.
Proof.
  assert (Hload : load (default_ctor zero_initialized)
                  = {| m_val := 0; m_error := false |}).
  { unfold load, default_ctor, zero_initialized.
    now rewrite le_combine_zeros, nth_zeros, wrap_zero. }
  split; [reflexivity|]. split; [exact Hload|].
  now rewrite Hload.
Qed.

(** ** Selection, sign and order *)

Lemma unpoisoned_is_make (a : safe_integral) :
  failure a = false -> a = make (m_val a).
Proof. destruct a as [v e]. cbn. now intros ->. Qed.

(** X1: [max(other)] and [min(other)]: the result is poisoned exactly when an
    operand is, and is then [zero(true)]; otherwise it is an unpoisoned copy
    of the larger (smaller) stored value.  Both are symmetric in their
    operands, and the raw overloads agree with wrapping the raw value. *)
Theorem min_max_of_select (a b : safe_integral) (raw : Z) :
  (max_of a b = max_of b a /\ min_of a b = min_of b a)
  /\ (failure (max_of a b) = failure a || failure b
      /\ failure (min_of a b) = failure a || failure b)
  /\ (failure a || failure b = true ->
      max_of a b = zero true /\ min_of a b = zero true)
  /\ (failure a || failure b = false ->
      max_of a b = make (Z.max (m_val a) (m_val b))
      /\ min_of a b = make (Z.min (m_val a) (m_val b)))
  /\ (max_of_raw a raw = max_of a (make raw)
      /\ min_of_raw a raw = min_of a (make raw)).
Proof.
  unfold max_of, min_of, max_of_raw, min_of_raw.
  rewrite (orb_comm (failure b) (failure a)).
  change (failure (make raw)) with false. rewrite orb_false_r.
  change (m_val (make raw)) with raw.
  destruct (failure a || failure b) eqn:E.
  - repeat split; intros; try reflexivity; discriminate.
  - assert (Hmax : (if m_val a <? m_val b then m_val b else m_val a)
                   = Z.max (m_val a) (m_val b))
      by (destruct (Z.ltb_spec (m_val a) (m_val b)); lia).
    assert (Hmin : (if m_val a <? m_val b then m_val a else m_val b)
                   = Z.min (m_val a) (m_val b))
      by (destruct (Z.ltb_spec (m_val a) (m_val b)); lia).
    assert (Hmax' : (if m_val b <? m_val a then m_val a else m_val b)
                    = Z.max (m_val a) (m_val b))
      by (destruct (Z.ltb_spec (m_val b) (m_val a)); lia).
    assert (Hmin' : (if m_val b <? m_val a then m_val b else m_val a)
                    = Z.min (m_val a) (m_val b))
      by (destruct (Z.ltb_spec (m_val b) (m_val a)); lia).
    rewrite Hmax, Hmin, Hmax', Hmin'.
    repeat split; intros; try reflexivity; discriminate.
Qed.

(** X2: [is_neg], [is_zero], [is_pos]: exactly one of them holds of any object
    whose stored value is a value of [T], and it is the one that matches
    the sign of [get()]; a poisoned object is the zero case. *)
Theorem sign_trichotomy (a : safe_integral) :
  representable T (m_val a) = true ->
  (is_neg a = true /\ is_zero a = false /\ is_pos a = false /\ get a < 0)
  \/ (is_neg a = false /\ is_zero a = true /\ is_pos a = false /\ get a = 0)
  \/ (is_neg a = false /\ is_zero a = false /\ is_pos a = true /\ 0 < get a).
Proof.
  intros Hr. unfold is_neg, is_zero, is_pos, op_gt, op_lt, get, failure.
  destruct a as [v [|]]; cbn [m_val m_error zero make_err negb andb].
  { right; left. destruct is_unsigned_type; repeat split. }
  cbn [m_val] in Hr. rewrite !andb_true_r.
  assert (Hneg : is_unsigned_type = true -> 0 <= v).
  { unfold is_unsigned_type, representable, numeric_limits_min in *.
    destruct (signed T); [discriminate|]. intros _.
    apply andb_true_iff in Hr. destruct Hr as [Hr _].
    now apply Z.leb_le in Hr. }
  destruct (Z.lt_total v 0) as [Hv|[Hv|Hv]].
  - left. destruct is_unsigned_type; [specialize (Hneg eq_refl); lia|].
    repeat split; lia.
  - right; left. subst v. destruct is_unsigned_type; repeat split.
  - right; right.
    assert (Hgt : (0 >? v) = false).
    { rewrite Z.gtb_ltb. apply Z.ltb_ge. lia. }
    rewrite Hgt. destruct is_unsigned_type; repeat split; try lia;
      try (apply Z.eqb_neq; lia); try (apply Z.ltb_lt; lia).
Qed.

(** X3: The six relational operators on arbitrary operands, poisoned or not:
    [>] and [>=] are [<] and [<=] with the operands exchanged, [<=] is
    [<] or [==], the mixed overloads agree with wrapping the raw operand,
    and on unpoisoned operands [==] holds exactly of equal objects and
    exactly one of [<], [==], [>] holds. *)
Theorem relational_operators_agree (a b : safe_integral) (raw : Z) :
  op_gt a b = op_lt b a
  /\ op_ge a b = op_le b a
  /\ op_le a b = op_lt a b || op_eq a b
  /\ (forall r, rel_sr r a raw = rel r a (make raw)
                /\ rel_rs r raw b = rel r (make raw) b)
  /\ (failure a = false -> failure b = false ->
      (op_eq a b = true <-> a = b)
      /\ (op_lt a b = true <-> m_val a < m_val b)
      /\ ((op_lt a b = true /\ op_eq a b = false /\ op_gt a b = false)
          \/ (op_lt a b = false /\ op_eq a b = true /\ op_gt a b = false)
          \/ (op_lt a b = false /\ op_eq a b = false /\ op_gt a b = true))).
Proof.
  split.
  { unfold op_gt, op_lt. rewrite Z.gtb_ltb.
    now destruct (failure a), (failure b), (get b <? get a). }
  split.
  { unfold op_ge, op_le. rewrite Z.geb_leb.
    now destruct (failure a), (failure b), (get b <=? get a). }
  split.
  { unfold op_le, op_lt, op_eq.
    destruct (failure a), (failure b); cbn; rewrite ?andb_false_r;
      try reflexivity.
    rewrite !andb_true_r.
    destruct (Z.leb_spec (get a) (get b)), (Z.ltb_spec (get a) (get b)),
      (Z.eqb_spec (get a) (get b)); try reflexivity; lia. }
  split.
  { intros r. destruct r; cbn;
      unfold op_eq_sr, op_lt_sr, op_le_sr, op_gt_sr, op_ge_sr,
        op_eq_rs, op_lt_rs, op_le_rs, op_gt_rs, op_ge_rs,
        op_eq, op_lt, op_le, op_gt, op_ge;
      change (get (make raw)) with raw;
      change (failure (make raw)) with false; cbn [negb];
      rewrite ?andb_true_r; split; try reflexivity;
      now destruct (failure b). }
  intros Ha Hb.
  unfold op_eq, op_lt, op_gt. rewrite (get_ok a Ha), (get_ok b Hb), Ha, Hb.
  cbn [negb]. rewrite !andb_true_r, Z.gtb_ltb.
  split.
  { rewrite Z.eqb_eq. split; [|now intros ->].
    intros E. rewrite (unpoisoned_is_make a Ha), (unpoisoned_is_make b Hb).
    now rewrite E. }
  split; [apply Z.ltb_lt|].
  destruct (Z.ltb_spec (m_val a) (m_val b)), (Z.eqb_spec (m_val a) (m_val b)),
    (Z.ltb_spec (m_val b) (m_val a)); try lia; auto.
Qed.

(** X4: [+] and [*] are commutative as operations on objects: value and poison
    flag of [a + b] and [b + a] coincide, whatever the operands and the
    build, and likewise for the two mixed overloads. *)
Theorem add_mul_commute (a b : safe_integral) (raw : Z) :
  op_add a b = op_add b a
  /\ op_mul a b = op_mul b a
  /\ op_add_sr a raw = op_add_rs raw a
  /\ op_mul_sr a raw = op_mul_rs raw a.
Proof.
  assert (Hadd : forall x y, op_add x y = op_add y x).
  { intros [vx ex] [vy ey].
    unfold op_add, op_add_assign, builtin_add_overflow,
      compiler_builtin_overflow, failure.
    cbn [m_val m_error]. rewrite (Z.add_comm vy vx).
    destruct BSL_PERFORCE, is_constant_evaluated,
      (negb (representable T (vx + vy))), ex, ey; reflexivity. }
  assert (Hmul : forall x y, op_mul x y = op_mul y x).
  { intros [vx ex] [vy ey].
    unfold op_mul, op_mul_assign, builtin_mul_overflow,
      compiler_builtin_overflow, failure.
    cbn [m_val m_error]. rewrite (Z.mul_comm vy vx).
    destruct BSL_PERFORCE, is_constant_evaluated,
      (negb (representable T (vx * vy))), ex, ey; reflexivity. }
  repeat split; [apply Hadd | apply Hmul | apply Hadd | apply Hmul].
Qed.

(** ** Negation, complement, increment and decrement *)

Lemma representable_opp (v : Z) :
  is_signed_type = true -> representable T v = true ->
  representable T (- v) = true <-> v <> min.
Proof.
  unfold is_signed_type, representable, min, numeric_limits_min,
    numeric_limits_max, bits.
  destruct T as [[] []]; cbn; intros Hs Hr; try discriminate;
    apply andb_true_iff in Hr; destruct Hr as [H1 H2];
    apply Z.leb_le in H1, H2; rewrite andb_true_iff, !Z.leb_le; lia.
Qed.

Lemma representable_succ (v : Z) :
  representable T v = true ->
  representable T (v + 1) = true <-> v <> max.
Proof.
  unfold representable, max, numeric_limits_min, numeric_limits_max, bits.
  destruct T as [[] []]; cbn; intros Hr;
    apply andb_true_iff in Hr; destruct Hr as [H1 H2];
    apply Z.leb_le in H1, H2; rewrite andb_true_iff, !Z.leb_le; lia.
Qed.

Lemma representable_pred (v : Z) :
  representable T v = true ->
  representable T (v - 1) = true <-> v <> min.
Proof.
  unfold representable, min, numeric_limits_min, numeric_limits_max, bits.
  destruct T as [[] []]; cbn; intros Hr;
    apply andb_true_iff in Hr; destruct Hr as [H1 H2];
    apply Z.leb_le in H1, H2; rewrite andb_true_iff, !Z.leb_le; lia.
Qed.

Lemma not_true_iff_false' (b : bool) (P : Prop) :
  (b = true <-> P) -> (negb b = true <-> ~ P).
Proof. destruct b; cbn; intuition congruence. Qed.

(** X5: Unary [-] (signed [T], fused check in use): negating an unpoisoned
    value poisons exactly when the value is [min()]; otherwise the result
    is the unpoisoned opposite, and negating twice gives the object back. *)
Theorem negation_checked (a : safe_integral) :
  BSL_PERFORCE = false -> is_signed_type = true ->
  failure a = false -> representable T (m_val a) = true ->
  (failure (op_neg a) = true <-> m_val a = min)
  /\ (m_val a <> min ->
      op_neg a = make (- m_val a) /\ op_neg (op_neg a) = a).
Proof.
  intros Hb Hs Ha Hr.
  assert (Hneg : forall x, failure x = false ->
            op_neg x
            = {| m_val := wrap T (- m_val x);
                 m_error := negb (representable T (- m_val x)) |}).
  { intros x Hx. unfold op_neg, op_sub.
    exact (compound_fused_exact Sub (zero false) x Hb eq_refl eq_refl Hx). }
  pose proof (representable_opp (m_val a) Hs Hr) as Hopp.
  split.
  - rewrite (Hneg a Ha). cbn [failure m_error].
    rewrite (not_true_iff_false' _ _ Hopp). split; [|tauto].
    intros Hnn. destruct (Z.eq_dec (m_val a) min); tauto.
  - intros Hmin. apply Hopp in Hmin.
    assert (E : op_neg a = make (- m_val a)).
    { rewrite (Hneg a Ha), Hmin. now rewrite wrap_representable. }
    split; [exact E|].
    rewrite E, (Hneg (make (- m_val a)) eq_refl). cbn [m_val make].
    rewrite Z.opp_involutive, Hr, (wrap_representable _ Hr).
    symmetry. now apply unpoisoned_is_make.
Qed.

Lemma lxor_max (x : Z) :
  is_unsigned_type = true -> representable T x = true ->
  Z.lxor max x = max - x.
Proof.
  intros Hu Hx.
  assert (Hbits : 0 <= bits T) by (unfold bits; destruct (int_width T); cbn; lia).
  assert (Hmax : max = Z.ones (bits T)).
  { unfold is_unsigned_type in Hu. unfold max, numeric_limits_max.
    destruct (signed T); [discriminate|]. rewrite Z.ones_equiv. lia. }
  apply (representable_unsigned _ Hu) in Hx.
  assert (Hland : Z.land (Z.lxor max x) x = 0).
  { apply Z.bits_inj'. intros i Hi.
    rewrite Z.land_spec, Z.lxor_spec, Z.bits_0, Hmax.
    destruct (Z.lt_ge_cases i (bits T)) as [Hlt|Hge].
    - rewrite Z.ones_spec_low by lia. now destruct (Z.testbit x i).
    - rewrite Z.ones_spec_high by lia.
      rewrite <- Hx, Z.testbit_mod_pow2 by lia.
      replace (i <? bits T) with false by (symmetry; apply Z.ltb_ge; lia).
      reflexivity. }
  pose proof (Z.add_nocarry_lxor _ _ Hland) as Hadd.
  rewrite Z.lxor_assoc, Z.lxor_nilpotent, Z.lxor_0_r in Hadd. lia.
Qed.

(** X6: [~] (unsigned [T]): the flag is kept, the stored result is
    [max() - get()], so a poisoned operand stores [max()], and applying [~]
    twice to an unpoisoned object gives it back. *)
Theorem complement_is_max_minus (a : safe_integral) :
  is_unsigned_type = true -> representable T (m_val a) = true ->
  failure (op_not a) = failure a
  /\ m_val (op_not a) = max - get a
  /\ (failure a = false -> get (op_not a) = max - m_val a
                           /\ op_not (op_not a) = a).
Proof.
  intros Hu Hr.
  assert (Hmaxr : representable T max = true).
  { unfold representable, max, numeric_limits_min, numeric_limits_max, bits.
    now destruct T as [[] []]. }
  assert (Hnot : forall x, representable T (m_val x) = true ->
            op_not x = make_err (max - get x) (failure x)).
  { intros x Hx. unfold op_not, op_xor_rs, op_xor, op_xor_assign.
    change (get (make max)) with max. change (failure (make max)) with false.
    cbn [orb].
    pose proof (get_representable x Hx) as Hg.
    destruct (bit_native_representable BXor max (get x) Hu Hmaxr Hg)
      as [_ Hw].
    cbn [bit_native] in Hw. rewrite Hw. now rewrite lxor_max. }
  rewrite (Hnot a Hr). cbn [failure m_val m_error make_err].
  split; [reflexivity|]. split; [reflexivity|].
  intros Ha. rewrite (get_ok a Ha).
  split; [unfold get; cbn [m_error m_val make_err]; now rewrite Ha|].
  rewrite Ha.
  assert (Hr' : representable T (max - m_val a) = true).
  { rewrite <- lxor_max by assumption.
    now destruct (bit_native_representable BXor max (m_val a) Hu Hmaxr Hr). }
  rewrite (Hnot (make_err (max - m_val a) false) Hr').
  cbn [failure m_error make_err]. change (get (make_err (max - m_val a) false))
    with (max - m_val a).
  replace (max - (max - m_val a)) with (m_val a) by lia.
  symmetry. now apply unpoisoned_is_make.
Qed.

(** X7: [++] and [--] (fused check in use): incrementing an unpoisoned value
    poisons exactly when [is_max()], decrementing exactly when [is_min()];
    otherwise the result is the neighbour, and [--] undoes [++] and
    conversely. *)
Theorem increment_decrement (a : safe_integral) :
  BSL_PERFORCE = false ->
  failure a = false -> representable T (m_val a) = true ->
  (failure (op_inc a) = true <-> is_max a = true)
  /\ (failure (op_dec a) = true <-> is_min a = true)
  /\ (is_max a = false ->
      op_inc a = make (m_val a + 1) /\ op_dec (op_inc a) = a)
  /\ (is_min a = false ->
      op_dec a = make (m_val a - 1) /\ op_inc (op_dec a) = a).
Proof.
  intros Hb Ha Hr.
  assert (Hinc : forall x, failure x = false ->
            op_inc x
            = {| m_val := wrap T (m_val x + 1);
                 m_error := negb (representable T (m_val x + 1)) |}).
  { intros x Hx. rewrite inc_is_add_one.
    change (op_add_assign_raw x 1) with (compound_raw Add x 1).
    rewrite compound_raw_is_compound.
    exact (compound_fused_exact Add x (make 1) Hb eq_refl Hx eq_refl). }
  assert (Hdec : forall x, failure x = false ->
            op_dec x
            = {| m_val := wrap T (m_val x - 1);
                 m_error := negb (representable T (m_val x - 1)) |}).
  { intros x Hx. rewrite dec_is_sub_one.
    change (op_sub_assign_raw x 1) with (compound_raw Sub x 1).
    rewrite compound_raw_is_compound.
    exact (compound_fused_exact Sub x (make 1) Hb eq_refl Hx eq_refl). }
  assert (Hismax : is_max a = true <-> m_val a = max).
  { unfold is_max, op_eq_rs. rewrite (get_ok a Ha), Ha. cbn [negb].
    rewrite andb_true_r, Z.eqb_eq. split; congruence. }
  assert (Hismin : is_min a = true <-> m_val a = min).
  { unfold is_min, op_eq_rs. rewrite (get_ok a Ha), Ha. cbn [negb].
    rewrite andb_true_r, Z.eqb_eq. split; congruence. }
  pose proof (representable_succ (m_val a) Hr) as Hsucc.
  pose proof (representable_pred (m_val a) Hr) as Hpred.
  split.
  { rewrite (Hinc a Ha), Hismax. cbn [failure m_error].
    rewrite (not_true_iff_false' _ _ Hsucc).
    destruct (Z.eq_dec (m_val a) max); tauto. }
  split.
  { rewrite (Hdec a Ha), Hismin. cbn [failure m_error].
    rewrite (not_true_iff_false' _ _ Hpred).
    destruct (Z.eq_dec (m_val a) min); tauto. }
  split.
  - intros Hnm.
    assert (Hne : m_val a <> max).
    { intros E. apply Hismax in E. congruence. }
    apply Hsucc in Hne.
    assert (E : op_inc a = make (m_val a + 1)).
    { rewrite (Hinc a Ha), Hne. now rewrite wrap_representable. }
    split; [exact E|].
    rewrite E, (Hdec (make (m_val a + 1)) eq_refl). cbn [m_val make].
    replace (m_val a + 1 - 1) with (m_val a) by lia.
    rewrite Hr, (wrap_representable _ Hr).
    symmetry. now apply unpoisoned_is_make.
  - intros Hnm.
    assert (Hne : m_val a <> min).
    { intros E. apply Hismin in E. congruence. }
    apply Hpred in Hne.
    assert (E : op_dec a = make (m_val a - 1)).
    { rewrite (Hdec a Ha), Hne. now rewrite wrap_representable. }
    split; [exact E|].
    rewrite E, (Hinc (make (m_val a - 1)) eq_refl). cbn [m_val make].
    replace (m_val a - 1 + 1) with (m_val a) by lia.
    rewrite Hr, (wrap_representable _ Hr).
    symmetry. now apply unpoisoned_is_make.
Qed.

(** ** Operators composed *)

Lemma fused_value (o : arith) (x y : Z) :
  BSL_PERFORCE = false -> is_fused o = true ->
  representable T (exact_result o x y) = true ->
  compound o (make x) (make y) = make (exact_result o x y).
Proof.
  intros Hb Ho Hr.
  exact (fused_in_range o (make x) (make y) Hb Ho eq_refl eq_refl Hr).
Qed.

Lemma representable_between (lo hi z : Z) :
  representable T lo = true -> representable T hi = true ->
  lo <= z <= hi -> representable T z = true.
Proof.
  unfold representable. intros Hlo Hhi Hz.
  apply andb_true_iff in Hlo, Hhi. destruct Hlo as [H1 _], Hhi as [_ H2].
  apply Z.leb_le in H1, H2. apply andb_true_iff. rewrite !Z.leb_le. lia.
Qed.

Lemma representable_zero : representable T 0 = true.
Proof.
  unfold representable, numeric_limits_min, numeric_limits_max, bits.
  now destruct T as [[] []].
Qed.

Lemma representable_max_is_opp_min_pred :
  is_signed_type = true -> max = - min - 1.
Proof.
  unfold is_signed_type, max, min, numeric_limits_max, numeric_limits_min.
  destruct (signed T); [lia | discriminate].
Qed.

(** X8: When no guard applies (both operands unpoisoned values of [T], divisor
    not zero, not [min / -1]), [/] and [%] execute the native operation
    exactly once, on operands for which it is defined, and return the
    unpoisoned truncated quotient and the remainder with the sign of the
    dividend. *)
Theorem division_exact (a b : safe_integral) :
  BSL_PERFORCE = false ->
  representable T (m_val a) = true -> representable T (m_val b) = true ->
  ~ division_refused a b ->
  op_div a b
  = (make (Z.quot (m_val a) (m_val b)), NativeDiv (m_val a) (m_val b) :: nil)
  /\ op_mod a b
     = (make (Z.rem (m_val a) (m_val b)), NativeMod (m_val a) (m_val b) :: nil)
  /\ native_defined (m_val a) (m_val b) = true.
Proof.
  intros Hb Hra Hrb Hfree.
  destruct (div_assign_runs a b Hb Hra Hrb Hfree) as [Hd Hdef].
  destruct (mod_assign_runs a b Hb Hra Hrb Hfree) as [Hm _].
  split; [exact Hd|]. split; [exact Hm | exact Hdef].
Qed.

(** X9: [(a / b) * b + a % b] is [a] again, unpoisoned, whenever the division
    itself is not refused: the product and the sum never overflow. *)
Theorem quotient_remainder_recompose (a b : safe_integral) :
  BSL_PERFORCE = false ->
  representable T (m_val a) = true -> representable T (m_val b) = true ->
  ~ division_refused a b ->
  op_add (op_mul (value (op_div a b)) b) (value (op_mod a b)) = a.
Proof.
  intros Hb Hra Hrb Hfree.
  destruct (div_assign_runs a b Hb Hra Hrb Hfree) as [Hd _].
  destruct (mod_assign_runs a b Hb Hra Hrb Hfree) as [Hm _].
  assert (Ha : failure a = false).
  { destruct (failure a) eqn:E; [|reflexivity].
    destruct Hfree. now left. }
  assert (Hbf : failure b = false).
  { destruct (failure b) eqn:E; [|reflexivity].
    destruct Hfree. right. now left. }
  assert (Hb0 : m_val b <> 0).
  { intros E. apply Hfree. right; right; left. now rewrite (get_ok b Hbf). }
  unfold op_div, op_mod. rewrite Hd, Hm. cbn [value fst].
  set (q := Z.quot (m_val a) (m_val b)).
  set (r := Z.rem (m_val a) (m_val b)).
  pose proof (Z.quot_rem' (m_val a) (m_val b)) as Hqr. fold q r in Hqr.
  assert (Hprod : representable T (q * m_val b) = true).
  { destruct (Z.le_gt_cases 0 (m_val a)) as [Hpos|Hneg].
    - apply (representable_between 0 (m_val a));
        [apply representable_zero | exact Hra |].
      pose proof (Z.mul_quot_le (m_val a) (m_val b) Hpos Hb0). fold q in H.
      lia.
    - apply (representable_between (m_val a) 0);
        [exact Hra | apply representable_zero |].
      pose proof (Z.mul_quot_ge (m_val a) (m_val b) ltac:(lia) Hb0).
      fold q in H. lia. }
  rewrite (unpoisoned_is_make b Hbf) at 1.
  change (op_mul (make q) (make (m_val b)))
    with (compound Mul (make q) (make (m_val b))).
  rewrite (fused_value Mul q (m_val b) Hb eq_refl Hprod).
  cbn [exact_result].
  change (op_add (make (q * m_val b)) (make r))
    with (compound Add (make (q * m_val b)) (make r)).
  assert (E : q * m_val b + r = m_val a) by lia.
  rewrite (fused_value Add (q * m_val b) r Hb eq_refl);
    cbn [exact_result]; rewrite E; [|exact Hra].
  symmetry. now apply unpoisoned_is_make.
Qed.

(** X10: Subtraction undoes an addition that did not overflow, and division
    undoes a multiplication by a non-zero value that did not overflow. *)
Theorem inverse_operations (a b : safe_integral) :
  BSL_PERFORCE = false ->
  failure a = false -> failure b = false ->
  representable T (m_val a) = true -> representable T (m_val b) = true ->
  (representable T (m_val a + m_val b) = true ->
   op_sub (op_add a b) b = a)
  /\ (representable T (m_val a * m_val b) = true -> m_val b <> 0 ->
      value (op_div (op_mul a b) b) = a).
Proof.
  intros Hb Ha Hbf Hra Hrb. split.
  - intros Hsum.
    change (op_add a b) with (compound Add a b).
    rewrite (fused_in_range Add a b Hb eq_refl Ha Hbf Hsum).
    cbn [exact_result].
    rewrite (unpoisoned_is_make b Hbf) at 2.
    change (op_sub (make (m_val a + m_val b)) (make (m_val b)))
      with (compound Sub (make (m_val a + m_val b)) (make (m_val b))).
    rewrite (fused_value Sub _ _ Hb eq_refl); cbn [exact_result];
      replace (m_val a + m_val b - m_val b) with (m_val a) by lia;
      [|exact Hra].
    symmetry. now apply unpoisoned_is_make.
  - intros Hprod Hb0.
    change (op_mul a b) with (compound Mul a b).
    rewrite (fused_in_range Mul a b Hb eq_refl Ha Hbf Hprod).
    cbn [exact_result].
    assert (Hfree : ~ division_refused (make (m_val a * m_val b)) b).
    { unfold division_refused. change (failure (make (m_val a * m_val b)))
        with false. change (get (make (m_val a * m_val b)))
        with (m_val a * m_val b).
      rewrite (get_ok b Hbf), Hbf.
      intros [H|[H|[H|(Hs & Hmin & Hm1)]]]; try discriminate;
        try contradiction.
      rewrite Hm1 in Hmin.
      assert (Hneg : representable T (- min) = true).
      { replace (- min) with (m_val a) by lia. exact Hra. }
      pose proof (representable_max_is_opp_min_pred Hs) as Hmax.
      unfold representable in Hneg. apply andb_true_iff in Hneg.
      destruct Hneg as [_ Hneg]. apply Z.leb_le in Hneg.
      unfold max, min in *. lia. }
    destruct (div_assign_runs (make (m_val a * m_val b)) b Hb Hprod Hrb Hfree)
      as [Hd _].
    unfold op_div. rewrite Hd. cbn [value fst m_val make].
    rewrite Z.quot_mul by exact Hb0.
    symmetry. now apply unpoisoned_is_make.
Qed.

(** ** Shifts and packing *)

Lemma bits_pos : 0 < bits T.
Proof. unfold bits. destruct (int_width T); cbn; lia. Qed.

Lemma wrap_unsigned (z : Z) :
  is_unsigned_type = true -> wrap T z = z mod 2 ^ bits T.
Proof.
  unfold is_unsigned_type, wrap. now destruct (signed T).
Qed.

Lemma representable_unsigned_bounds (z : Z) :
  is_unsigned_type = true ->
  representable T z = true <-> 0 <= z < 2 ^ bits T.
Proof.
  intros Hu. rewrite (representable_unsigned z Hu).
  pose proof bits_pos.
  assert (0 < 2 ^ bits T) by (apply Z.pow_pos_nonneg; lia).
  split.
  - intros <-. apply Z.mod_pos_bound. lia.
  - intros Hz. now apply Z.mod_small.
Qed.

(** X11: [<<] and [>>] (unsigned [T], count below the width): the compound and
    the free form agree, the flag is kept, [<<] stores
    [get() * 2^count] reduced modulo [2^bits] and [>>] stores
    [get() / 2^count]; shifting an unpoisoned value left and back right
    returns it when no set bit was pushed out. *)
Theorem shift_semantics (a : safe_integral) (count : Z) :
  is_unsigned_type = true -> representable T (m_val a) = true ->
  0 <= count < bits T ->
  (op_shl_assign a count = op_shl a count
   /\ op_shr_assign a count = op_shr a count)
  /\ (failure (op_shl a count) = failure a
      /\ failure (op_shr a count) = failure a)
  /\ m_val (op_shl a count) = (get a * 2 ^ count) mod 2 ^ bits T
  /\ m_val (op_shr a count) = get a / 2 ^ count
  /\ (failure a = false -> m_val a < 2 ^ (bits T - count) ->
      op_shr (op_shl a count) count = a).
Proof.
  intros Hu Hr Hc.
  split; [split; reflexivity|]. split; [split; reflexivity|].
  unfold op_shl, op_shr. cbn [m_val make_err].
  rewrite (wrap_unsigned _ Hu), Z.shiftl_mul_pow2, Z.shiftr_div_pow2 by lia.
  split; [reflexivity|]. split; [reflexivity|].
  intros Ha Hsmall. rewrite (get_ok a Ha), Ha.
  apply (representable_unsigned_bounds _ Hu) in Hr.
  assert (Hpow : 2 ^ bits T = 2 ^ (bits T - count) * 2 ^ count).
  { rewrite <- Z.pow_add_r by lia. f_equal. lia. }
  assert (H2c : 0 < 2 ^ count) by (apply Z.pow_pos_nonneg; lia).
  assert (Hfit : 0 <= m_val a * 2 ^ count < 2 ^ bits T) by (rewrite Hpow; nia).
  unfold get. cbn [m_error m_val make_err].
  rewrite Z.shiftr_div_pow2 by lia.
  rewrite (Z.mod_small _ _ Hfit), Z.div_mul by lia.
  symmetry. now apply unpoisoned_is_make.
Qed.

Lemma lor_disjoint_add (h l k : Z) :
  0 <= k -> 0 <= l < 2 ^ k -> Z.lor (h * 2 ^ k) l = h * 2 ^ k + l.
Proof.
  intros Hk Hl.
  assert (Hland : Z.land (h * 2 ^ k) l = 0).
  { apply Z.bits_inj'. intros i Hi.
    rewrite Z.land_spec, Z.bits_0, <- Z.shiftl_mul_pow2 by lia.
    destruct (Z.lt_ge_cases i k) as [Hlt|Hge].
    - now rewrite Z.shiftl_spec_low by lia.
    - rewrite <- (Z.mod_small l (2 ^ k)) by lia.
      rewrite Z.testbit_mod_pow2 by lia.
      replace (i <? k) with false by (symmetry; apply Z.ltb_ge; lia).
      now rewrite andb_false_r. }
  rewrite (Z.add_nocarry_lxor _ _ Hland). symmetry.
  now apply Z.lxor_lor.
Qed.

(** X12: Packing two halves, [(high << k) | low], as the file mapping does for
    the two 32-bit halves of a file size: for unpoisoned operands with
    [high < 2^(bits - k)] and [low < 2^k] the result is the unpoisoned value
    [high * 2^k + low]; a poisoned half poisons the result. *)
Theorem pack_halves (high low : safe_integral) (k : Z) :
  is_unsigned_type = true -> 0 <= k < bits T ->
  0 <= m_val high < 2 ^ (bits T - k) -> 0 <= m_val low < 2 ^ k ->
  failure (op_or (op_shl high k) low) = failure high || failure low
  /\ (failure high = false -> failure low = false ->
      op_or (op_shl high k) low = make (m_val high * 2 ^ k + m_val low)).
Proof.
  intros Hu Hk Hh Hl. split; [reflexivity|].
  intros Hfh Hfl.
  assert (Hpow : 2 ^ bits T = 2 ^ (bits T - k) * 2 ^ k).
  { rewrite <- Z.pow_add_r by lia. f_equal. lia. }
  assert (H2k : 0 < 2 ^ k) by (apply Z.pow_pos_nonneg; lia).
  assert (Hfit : 0 <= m_val high * 2 ^ k + m_val low < 2 ^ bits T)
    by (rewrite Hpow; nia).
  assert (Hfit' : 0 <= m_val high * 2 ^ k < 2 ^ bits T) by lia.
  unfold op_or, op_or_assign, op_shl. rewrite (get_ok high Hfh), Hfh.
  rewrite (get_ok low Hfl), Hfl.
  unfold get. cbn [m_error m_val make_err failure orb].
  rewrite !(wrap_unsigned _ Hu), Z.shiftl_mul_pow2 by lia.
  rewrite (Z.mod_small _ _ Hfit'), (lor_disjoint_add _ _ _ (proj1 Hk) Hl).
  now rewrite (Z.mod_small _ _ Hfit).
Qed.

(** ** The build with [BSL_PERFORCE] set *)


End SafeIntegralOf.

(** ** Overflow detection, for every instantiation and on the int8 cases *)

(** C5: on unpoisoned operands, [+], [-] and [*] (compound or free, with or
    without a raw operand) poison the result exactly when the exact result
    is not a value of [T], and otherwise return it; for int8, [127 + 1] is
    poisoned, [127 + 0] is not, and [-128 - 1] is poisoned.  The statement
    is for the build in which the wrappers call the compiler primitives
    ([BSL_PERFORCE] false). *)
Theorem overflow_detection_exact
    (T : int_type) (BSL_PERFORCE is_constant_evaluated : bool)
    (a b : safe_integral) (raw : Z) :
  BSL_PERFORCE = false ->
  failure a = false -> failure b = false ->
  (forall o, is_fused o = true ->
     (failure (compound T BSL_PERFORCE is_constant_evaluated o a b) = true
      <-> out_of_range T (exact_result o (m_val a) (m_val b)))
     /\ (failure (binary T BSL_PERFORCE is_constant_evaluated o a b) = true
         <-> out_of_range T (exact_result o (m_val a) (m_val b)))
     /\ (failure (compound_raw T BSL_PERFORCE is_constant_evaluated o a raw) = true
         <-> out_of_range T (exact_result o (m_val a) raw))
     /\ (failure (binary_sr T BSL_PERFORCE is_constant_evaluated o a raw) = true
         <-> out_of_range T (exact_result o (m_val a) raw))
     /\ (failure (binary_rs T BSL_PERFORCE is_constant_evaluated o raw b) = true
         <-> out_of_range T (exact_result o raw (m_val b)))
     /\ (representable T (exact_result o (m_val a) (m_val b)) = true ->
         get (binary T BSL_PERFORCE is_constant_evaluated o a b)
         = exact_result o (m_val a) (m_val b)))
  /\ failure (op_add int8 BSL_PERFORCE is_constant_evaluated
                (make 127) (make 1)) = true
  /\ failure (op_add int8 BSL_PERFORCE is_constant_evaluated
                (make 127) (make 0)) = false
  /\ failure (op_sub int8 BSL_PERFORCE is_constant_evaluated
                (make (-128)) (make 1)) = true.
Proof.
  intros Hb Ha Hb'. split.
  - intros o Ho.
    rewrite (binary_is_compound T BSL_PERFORCE is_constant_evaluated o a b),
      (binary_sr_is_compound T BSL_PERFORCE is_constant_evaluated o a raw),
      (binary_rs_is_compound T BSL_PERFORCE is_constant_evaluated o raw b),
      (compound_raw_is_compound T BSL_PERFORCE is_constant_evaluated o a raw).
    split; [now apply fused_poisons_iff|].
    split; [now apply fused_poisons_iff|].
    split; [now apply (fused_poisons_iff T _ _ o a (make raw))|].
    split; [now apply (fused_poisons_iff T _ _ o a (make raw))|].
    split; [now apply (fused_poisons_iff T _ _ o (make raw) b)|].
    intros Hr. now rewrite fused_in_range.
  - subst BSL_PERFORCE. now destruct is_constant_evaluated.
Qed.

(** ** Concrete runs *)

Example int32_min_div_minus_one :
  op_div int32 false false (make (-2147483648)) (make (-1))
  = skip (make_err (-2147483648) true).
Proof. reflexivity. Qed.

Example int32_ten_div_zero :
  get (value (op_div int32 false false (make 10) (make 0))) = 0
  /\ failure (value (op_div int32 false false (make 10) (make 0))) = true.
Proof. split; reflexivity. Qed.

Example int32_overview_example :
  let val (n : Z) := make n in
  let div x y := value (op_div int32 false false x y) in
  let md x y := value (op_mod int32 false false x y) in
  op_sub int32 false false
    (op_mul int32 false false
       (md (op_add int32 false false (div (val 4) (val 8)) (val 15)) (val 16))
       (val 23))
    (val 42)
  = make 303.
Proof. reflexivity. Qed.

(** With [BSL_PERFORCE] set even [127 + 0] is reported as an error, and the
    [min / -1] guard of [/=] is dead: the native division is executed on
    operands for which it is undefined. *)
Example int8_add_zero_perforce :
  failure (op_add int8 true false (make 127) (make 0)) = true.
Proof. reflexivity. Qed.

Example int32_min_div_minus_one_perforce :
  trace (op_div int32 true false (make (-2147483648)) (make (-1)))
  = NativeDiv (-2147483648) (-1) :: nil
  /\ native_defined int32 (-2147483648) (-1) = false.
Proof. split; reflexivity. Qed.

(** A default-initialised object in storage that is not zeroed keeps what
    the storage held. *)
Example default_ctor_keeps_storage :
  load int32
    (default_ctor (Byte.x2a :: Byte.x00 :: Byte.x00 :: Byte.x00
                     :: Byte.x01 :: Byte.x00 :: Byte.x00 :: Byte.x00 :: nil))
  = make_err 42 true.
Proof. reflexivity. Qed.

(** ** Instances of the conditional theorems *)

Lemma poisoned_reads_as_zero_witness :
  get (make_err 42 true) = 0 /\ is_zero (make_err 42 true) = true.
Proof. apply (poisoned_reads_as_zero (make_err 42 true)). reflexivity. Defined.

Lemma poison_is_sticky_witness :
  failure (op_add_assign int8 false false (make_err 5 true) (make 1)) = true.
Proof.
  pose proof (poison_is_sticky int8 false false (make_err 5 true) (make 1) 0
                Increment eq_refl) as H.
  exact (proj1 (proj1 H Add)).
Defined.

Lemma division_guards_witness :
  poisoned_without_dividing
    (op_div_assign int32 false false (make (-2147483648)) (make (-1))).
Proof.
  pose proof (division_guards int32 false false
                (make (-2147483648)) (make (-1)) 0 eq_refl) as H.
  apply (proj1 H). right. right. right. repeat split.
Defined.

Lemma comparison_with_poison_witness :
  op_eq (make_err 42 true) (make_err 42 true) = false
  /\ op_ne (make_err 42 true) (make_err 42 true) = true.
Proof.
  pose proof (comparison_with_poison (make_err 42 true) (make_err 42 true) 42
                eq_refl) as H.
  split.
  - exact (proj1 (proj1 H REq)).
  - exact (proj1 (proj1 (proj2 H))).
Defined.

Lemma overflow_detection_exact_witness :
  failure (binary int8 false false Add (make 127) (make 1)) = true.
Proof.
  pose proof (overflow_detection_exact int8 false false (make 127) (make 1) 1
                eq_refl eq_refl eq_refl) as H.
  apply (proj1 (proj2 (proj1 H Add eq_refl))).
  right. cbn. lia.
Defined.

Lemma bitwise_poison_or_witness :
  failure (op_and uint8 (make_err 12 true) (make 10)) = true
  /\ m_val (op_and uint8 (make 12) (make 10)) = 8.
Proof.
  split.
  - exact (proj1 (proj1 (proj2
      (bitwise_poison_or uint8 BAnd (make_err 12 true) (make 10) 0
         eq_refl eq_refl eq_refl eq_refl)))).
  - exact (proj2 (proj1 (proj2
      (bitwise_poison_or uint8 BAnd (make 12) (make 10) 0
         eq_refl eq_refl eq_refl eq_refl)))).
Defined.

Lemma free_operators_preserve_operands_witness :
  ref_add int8 false false 0%nat 0%nat {[ 0%nat := make 100 ]}
  = Some (make_err (-56) true, {[ 0%nat := make 100 ]}).
Proof.
  exact (proj1 (free_operators_preserve_operands int8 false false Add
                  {[ 0%nat := make 100 ]} 0%nat 0%nat (make 100) (make 100) 0
                  (lookup_singleton_eq 0%nat (make 100))
                  (lookup_singleton_eq 0%nat (make 100)))).
Defined.

Lemma poisoned_is_not_extremum_witness :
  is_max int8 (make_err 127 true) = false
  /\ is_min int8 (make_err (-128) true) = false.
Proof.
  split.
  - exact (proj1 (proj2 (poisoned_is_not_extremum int8 (make_err 127 true)
                           eq_refl))).
  - exact (proj1 (poisoned_is_not_extremum int8 (make_err (-128) true)
                    eq_refl)).
Defined.

(** * Error codes *)

(** X14: An error code is in exactly one of three states: success (zero),
    checked (negative) or unchecked (positive); [failure()] is the negation
    of [success()], the conversion to [bool] is [success()], and [==] holds
    exactly of equal codes. *)
Theorem errc_status_partition (e e' : Errc.basic_errc_type) :
  ((Errc.success e = true /\ Errc.is_checked e = false
    /\ Errc.is_unchecked e = false /\ Errc.get e = 0)
   \/ (Errc.success e = false /\ Errc.is_checked e = true
       /\ Errc.is_unchecked e = false /\ Errc.get e < 0)
   \/ (Errc.success e = false /\ Errc.is_checked e = false
       /\ Errc.is_unchecked e = true /\ 0 < Errc.get e))
  /\ Errc.failure e = negb (Errc.success e)
  /\ Errc.op_bool e = Errc.success e
  /\ (Errc.op_eq e e' = true <-> e = e')
  /\ Errc.op_ne e e' = negb (Errc.op_eq e e').
Proof.
  destruct e as [c], e' as [c'].
  unfold Errc.success, Errc.is_checked, Errc.is_unchecked, Errc.failure,
    Errc.op_bool, Errc.op_eq, Errc.op_ne, Errc.get. cbn [Errc.m_errc].
  split.
  { destruct (Z.lt_total c 0) as [H|[H|H]].
    - right; left. repeat split; lia.
    - left. subst c. repeat split.
    - right; right. repeat split; lia. }
  repeat split; try reflexivity.
  - intros H. apply Z.eqb_eq in H. now subst.
  - intros H. injection H as ->. apply Z.eqb_refl.
Qed.

(** X15: [message()] is empty exactly for the codes the header does not
    predefine; the thirteen predefined codes have pairwise different
    messages, none of them is a checked (negative) code, and
    [errc_success] is the only one that reports success. *)
Theorem errc_message_table (e : Errc.basic_errc_type) :
  (Errc.message e = String.EmptyString <-> ~ In e Errc.predefined)
  /\ (forall e1 e2, In e1 Errc.predefined -> In e2 Errc.predefined ->
        Errc.message e1 = Errc.message e2 -> e1 = e2)
  /\ (In e Errc.predefined ->
        Errc.is_checked e = false
        /\ (Errc.success e = true <-> e = Errc.errc_success)).
Proof.
  split; [|split].
  - destruct e as [c]. unfold Errc.message. cbn [Errc.m_errc Errc.get
      Errc.errc_success Errc.errc_failure Errc.errc_precondition
      Errc.errc_postcondition Errc.errc_assetion Errc.errc_invalid_argument
      Errc.errc_index_out_of_bounds Errc.errc_bad_function
      Errc.errc_unsigned_wrap Errc.errc_narrow_overflow
      Errc.errc_signed_overflow Errc.errc_divide_by_zero
      Errc.errc_nullptr_dereference Errc.make].
    repeat match goal with
           | |- context [c =? ?k] =>
               destruct (Z.eqb_spec c k) as [->|?];
               [split; [discriminate | intros H; exfalso; apply H; cbn; tauto]|]
           end.
    split; [|reflexivity]. intros _ Hin.
    cbv [In Errc.predefined Errc.errc_success Errc.errc_failure
           Errc.errc_precondition Errc.errc_postcondition Errc.errc_assetion
           Errc.errc_invalid_argument Errc.errc_index_out_of_bounds
           Errc.errc_bad_function Errc.errc_unsigned_wrap
           Errc.errc_narrow_overflow Errc.errc_signed_overflow
           Errc.errc_divide_by_zero Errc.errc_nullptr_dereference
           Errc.make] in Hin.
    intuition congruence.
  - intros e1 e2 H1 H2. cbn in H1, H2.
    repeat match goal with
           | H : _ \/ _ |- _ => destruct H as [H|H]
           | H : False |- _ => destruct H
           end; subst; cbn; intros Hm; try reflexivity; discriminate.
  - intros Hin. cbn in Hin.
    repeat match goal with
           | H : _ \/ _ |- _ => destruct H as [H|H]
           | H : False |- _ => destruct H
           end; subst; cbn; split; try reflexivity;
      split; intros E; try reflexivity; discriminate.
Qed.

(** * Dynamic arrays *)

Module DynarrayFacts.

Import Dynarray.

Section Facts.

Context {A : Type} `{EqDecision A} {D : Type}.
Variable invoke : D -> nat -> Z -> gmap nat (list A) -> gmap nat (list A).
Variable build : contract_build.

Lemma subscript_in_range (w : world (A:=A) (D:=D)) (p : nat) (arr : list A)
    (i : Z) :
  heap w !! p = Some arr -> 0 <= i < Z.of_nat (length arr) ->
  exists x, arr !! Z.to_nat i = Some x /\ subscript p i w = Returns (x, w).
Proof.
  intros Hp Hi. unfold subscript. rewrite Hp.
  replace ((0 <=? i) && (i <? Z.of_nat (length arr))) with true
    by (symmetry; apply andb_true_iff; split;
        [apply Z.leb_le | apply Z.ltb_lt]; lia).
  destruct (lookup_lt_is_Some_2 arr (Z.to_nat i) ltac:(lia)) as [x Hx].
  exists x. now rewrite Hx.
Qed.

Lemma subscript_out_of_range (w : world (A:=A) (D:=D)) (p : nat) (i : Z) :
  match heap w !! p with
  | Some arr => Z.of_nat (length arr) <= i
  | None => True
  end ->
  subscript p i w = Undefined.
Proof.
  unfold subscript. destruct (heap w !! p) as [arr|]; [|reflexivity].
  intros Hi.
  replace (i <? Z.of_nat (length arr)) with false
    by (symmetry; apply Z.ltb_ge; lia).
  now rewrite andb_false_r.
Qed.

(** X16: [at()] checks its index in every build: it throws [out_of_range] exactly
    when [pos >= size()] and otherwise returns the element, leaving the
    world as it was.  [operator[]] returns the same element in range, but
    out of range it only fails cleanly where the contract macros expand to
    a check (logic_error or termination); in the other builds the access
    is undefined behaviour. *)
Theorem at_checked_index_contract
    (w : world (A:=A) (D:=D)) (this : nat) (d : dynarray) (pos : Z) :
  objects w !! this = Some d -> sized w d -> 0 <= pos ->
  (pos < m_count d ->
   exists arr x,
     heap w !! m_ptr d = Some arr /\ arr !! Z.to_nat pos = Some x
     /\ at_ this pos w = Returns (x, w)
     /\ index build this pos w = Returns (x, w))
  /\ (m_count d <= pos ->
      at_ this pos w = Throws out_of_range
      /\ index build this pos w = on_violated_expects build).
Proof.
  intros Hobj Hsized Hpos. unfold sized in Hsized. split.
  - intros Hlt. destruct (heap w !! m_ptr d) as [arr|] eqn:Hheap; [|lia].
    destruct (subscript_in_range w (m_ptr d) arr pos Hheap ltac:(lia))
      as (x & Hx & Hsub).
    exists arr, x. split; [reflexivity|]. split; [exact Hx|].
    assert (Hge : (pos >=? m_count d) = false).
    { rewrite Z.geb_leb. apply Z.leb_gt. lia. }
    assert (Hltb : (pos <? m_count d) = true) by (apply Z.ltb_lt; lia).
    split.
    + unfold at_, size, get, bind, this_object, ret. rewrite Hobj, Hge.
      now rewrite Hobj, Hsub.
    + unfold index, bfexpects, BAREFLANK_CONTRACT_CHECK_THROW,
        BAREFLANK_CONTRACT_CHECK_TERMINATE, size, get, bind, this_object, ret.
      destruct (core_guideline_compliant build), (policy build);
        rewrite ?Hobj, ?Hltb, ?Hobj, ?Hsub; rewrite ?Hobj, ?Hsub;
        reflexivity.
  - intros Hge.
    assert (Hgeb : (pos >=? m_count d) = true).
    { rewrite Z.geb_leb. apply Z.leb_le. lia. }
    assert (Hltb : (pos <? m_count d) = false) by (apply Z.ltb_ge; lia).
    assert (Hsub : subscript (m_ptr d) pos w = Undefined).
    { apply subscript_out_of_range.
      destruct (heap w !! m_ptr d); [lia | exact I]. }
    split.
    + unfold at_, size, bind, this_object, ret, throw.
      now rewrite Hobj, Hgeb.
    + unfold index, on_violated_expects, bfexpects,
        BAREFLANK_CONTRACT_CHECK_THROW, BAREFLANK_CONTRACT_CHECK_TERMINATE,
        size, get, bind, this_object, ret, throw, terminate.
      destruct (core_guideline_compliant build), (policy build);
        rewrite ?Hobj, ?Hltb, ?Hobj, ?Hsub; rewrite ?Hobj, ?Hsub;
        reflexivity.
Qed.

Lemma subscript_head (w : world (A:=A) (D:=D)) (p : nat) (x : A)
    (tl : list A) :
  heap w !! p = Some (x :: tl) -> subscript p 0 w = Returns (x, w).
Proof.
  intros Hp.
  destruct (subscript_in_range w p (x :: tl) 0 Hp) as (x' & Hx & ->).
  - cbn [length]. lia.
  - cbn in Hx. now injection Hx as ->.
Qed.

Lemma size_t_wrap_minus_one : size_t_wrap (0 - 1) = 2 ^ 64 - 1.
Proof. reflexivity. Qed.

(** X17: [front()] and [back()] return the first and the last element of a
    non-empty array.  On an empty array [back()] indexes with
    [size() - 1], which wraps to the largest [size_t]: both functions then
    fail as a violated [bfexpects] does in the build, undefined behaviour
    included. *)
Theorem front_back_access
    (w : world (A:=A) (D:=D)) (this : nat) (d : dynarray) :
  objects w !! this = Some d -> sized w d -> 0 <= m_count d < 2 ^ 64 ->
  (0 < m_count d ->
   exists arr x y,
     heap w !! m_ptr d = Some arr
     /\ arr !! 0%nat = Some x /\ arr !! (length arr - 1)%nat = Some y
     /\ front build this w = Returns (x, w)
     /\ back build this w = Returns (y, w))
  /\ (m_count d = 0 ->
      front build this w = on_violated_expects build
      /\ back build this w = on_violated_expects build).
Proof.
  intros Hobj Hsized Hn. unfold sized in Hsized. split.
  - intros Hpos. destruct (heap w !! m_ptr d) as [arr|] eqn:Hheap; [|lia].
    destruct (subscript_in_range w (m_ptr d) arr 0 Hheap ltac:(lia))
      as (x & Hx & Hsub0).
    assert (Hwrap : size_t_wrap (m_count d - 1) = m_count d - 1)
      by (unfold size_t_wrap; apply Z.mod_small; lia).
    destruct (subscript_in_range w (m_ptr d) arr (m_count d - 1) Hheap
                ltac:(lia)) as (y & Hy & Hsubn).
    replace (Z.to_nat (m_count d - 1)) with (length arr - 1)%nat in Hy by lia.
    exists arr, x, y. split; [reflexivity|]. split; [exact Hx|].
    split; [exact Hy|].
    assert (He : (m_count d =? 0) = false) by (apply Z.eqb_neq; lia).
    split.
    + unfold front, bfexpects, BAREFLANK_CONTRACT_CHECK_THROW,
        BAREFLANK_CONTRACT_CHECK_TERMINATE, empty, size, get, bind,
        this_object, ret.
      destruct (core_guideline_compliant build), (policy build);
        rewrite ?Hobj, ?He; cbn [negb]; rewrite ?Hobj, ?Hsub0;
        reflexivity.
    + unfold back, bfexpects, BAREFLANK_CONTRACT_CHECK_THROW,
        BAREFLANK_CONTRACT_CHECK_TERMINATE, empty, size, get, bind,
        this_object, ret.
      destruct (core_guideline_compliant build), (policy build);
        rewrite ?Hobj, ?He; cbn [negb]; rewrite ?Hobj, ?Hwrap, ?Hsubn;
        reflexivity.
  - intros H0.
    assert (He : (m_count d =? 0) = true) by (apply Z.eqb_eq; lia).
    assert (Hsub0 : subscript (m_ptr d) 0 w = Undefined).
    { apply subscript_out_of_range.
      destruct (heap w !! m_ptr d); [lia | exact I]. }
    assert (Hsubn : subscript (m_ptr d) (size_t_wrap (m_count d - 1)) w
                    = Undefined).
    { rewrite H0, size_t_wrap_minus_one. apply subscript_out_of_range.
      destruct (heap w !! m_ptr d); [lia | exact I]. }
    split.
    + unfold front, on_violated_expects, bfexpects,
        BAREFLANK_CONTRACT_CHECK_THROW, BAREFLANK_CONTRACT_CHECK_TERMINATE,
        empty, size, get, bind, this_object, ret, throw, terminate.
      destruct (core_guideline_compliant build), (policy build);
        rewrite ?Hobj, ?He; cbn [negb]; rewrite ?Hobj, ?Hsub0;
        reflexivity.
    + unfold back, on_violated_expects, bfexpects,
        BAREFLANK_CONTRACT_CHECK_THROW, BAREFLANK_CONTRACT_CHECK_TERMINATE,
        empty, size, get, bind, this_object, ret, throw, terminate.
      destruct (core_guideline_compliant build), (policy build);
        rewrite ?Hobj, ?He; cbn [negb]; rewrite ?Hobj, ?Hsubn;
        reflexivity.
Qed.

(** X18: [operator==] on two arrays looks at the sizes and at element 0 only:
    its loop steps with [--i], so after the first comparison the index is
    the largest [size_t] and the loop ends.  Arrays of different sizes are
    unequal, two empty arrays are equal, and two arrays of the same
    non-zero size are equal exactly when their first elements are,
    whatever the remaining elements; [!=] is the negation.  Two units of
    fuel suffice and the world is left unchanged. *)
Theorem equality_compares_first_element_only
    (w : world (A:=A) (D:=D)) (lhs rhs : nat) (dl dr : dynarray)
    (fuel : nat) :
  objects w !! lhs = Some dl -> objects w !! rhs = Some dr ->
  0 <= m_count dl < 2 ^ 64 ->
  (2 <= fuel)%nat ->
  (m_count dl <> m_count dr ->
   op_eq fuel lhs rhs w = Returns (false, w)
   /\ op_ne fuel lhs rhs w = Returns (true, w))
  /\ (m_count dl = 0 -> m_count dr = 0 ->
      op_eq fuel lhs rhs w = Returns (true, w)
      /\ op_ne fuel lhs rhs w = Returns (false, w))
  /\ (forall x y tl tr,
        m_count dl = m_count dr -> 0 < m_count dl ->
        heap w !! m_ptr dl = Some (x :: tl) ->
        heap w !! m_ptr dr = Some (y :: tr) ->
        op_eq fuel lhs rhs w = Returns (bool_decide (x = y), w)
        /\ op_ne fuel lhs rhs w = Returns (negb (bool_decide (x = y)), w)).
Proof.
  intros Hl Hr Hn Hfuel.
  destruct fuel as [|[|fuel]]; try lia.
  assert (Hne_of : forall b, op_eq (S (S fuel)) lhs rhs w = Returns (b, w) ->
            op_ne (S (S fuel)) lhs rhs w = Returns (negb b, w)).
  { intros b Hb. unfold op_ne, bind at 1. now rewrite Hb. }
  split; [|split].
  - intros Hdiff.
    assert (E : op_eq (S (S fuel)) lhs rhs w = Returns (false, w)).
    { unfold op_eq, size, bind, this_object, ret. rewrite Hl, Hr.
      replace (m_count dl =? m_count dr) with false
        by (symmetry; now apply Z.eqb_neq).
      reflexivity. }
    split; [exact E | exact (Hne_of false E)].
  - intros H0 H0'.
    assert (E : op_eq (S (S fuel)) lhs rhs w = Returns (true, w)).
    { unfold op_eq, size, bind, this_object, ret. rewrite Hl, Hr.
      rewrite H0, H0'. cbn [Z.eqb negb].
      cbn [eq_loop]. unfold size, bind, this_object, ret.
      rewrite Hl, H0. reflexivity. }
    split; [exact E | exact (Hne_of true E)].
  - intros x y tl tr Hsame Hpos Hhl Hhr.
    assert (E : op_eq (S (S fuel)) lhs rhs w
                = Returns (bool_decide (x = y), w)).
    { unfold op_eq, size, bind, this_object, ret. rewrite Hl, Hr.
      rewrite <- Hsame, Z.eqb_refl. cbn [negb].
      cbn [eq_loop]. unfold size, get, bind, this_object, ret.
      rewrite Hl.
      replace (0 <? m_count dl) with true by (symmetry; apply Z.ltb_lt; lia).
      rewrite Hl, (subscript_head w (m_ptr dl) x tl Hhl).
      rewrite Hr, (subscript_head w (m_ptr dr) y tr Hhr).
      destruct (bool_decide (x = y)); cbn [negb]; [|reflexivity].
      rewrite Hl, size_t_wrap_minus_one.
      replace (2 ^ 64 - 1 <? m_count dl) with false
        by (symmetry; apply Z.ltb_ge; lia).
      reflexivity. }
    split; [exact E | exact (Hne_of _ E)].
Qed.

Lemma world_eta (w : world (A:=A) (D:=D)) :
  {| objects := objects w; heap := heap w;
     deleter_calls := deleter_calls w |} = w.
Proof. now destruct w. Qed.

Lemma fill_loop_spec (this : nat) (d : dynarray) (v : A) (fuel : nat) :
  forall (k : nat) (w : world (A:=A) (D:=D)) (arr : list A),
    objects w !! this = Some d -> m_count d < 2 ^ 64 ->
    heap w !! m_ptr d = Some arr -> Z.of_nat (length arr) = m_count d ->
    (k <= length arr)%nat -> (length arr - k < fuel)%nat ->
    fill_loop fuel this v (Z.of_nat k) w
    = Returns (tt, {| objects := objects w;
                      heap := <[m_ptr d := take k arr
                                           ++ replicate (length arr - k) v]>
                                (heap w);
                      deleter_calls := deleter_calls w |}).
Proof.
  induction fuel as [|fuel IH]; intros k w arr Hobj Hmax Hheap Hlen Hk Hfuel;
    [lia|].
  cbn [fill_loop]. unfold size, get, bind, this_object, ret. rewrite Hobj.
  destruct (Z.ltb_spec (Z.of_nat k) (m_count d)) as [Hlt|Hge].
  - rewrite Hobj. unfold assign_subscript. rewrite Hheap.
    replace ((0 <=? Z.of_nat k) && (Z.of_nat k <? Z.of_nat (length arr)))
      with true
      by (symmetry; apply andb_true_iff; split;
          [apply Z.leb_le | apply Z.ltb_lt]; lia).
    rewrite Nat2Z.id.
    assert (Hwrap : size_t_wrap (Z.of_nat k + 1) = Z.of_nat (S k)).
    { unfold size_t_wrap. rewrite Z.mod_small by lia. lia. }
    rewrite Hwrap.
    rewrite (IH (S k) _ (<[k := v]> arr)); cbn [objects heap deleter_calls];
      try assumption.
    + rewrite insert_insert_eq, length_insert. do 3 f_equal.
      assert (Hkv : (<[k := v]> arr) !! k = Some v)
        by (apply list_lookup_insert_eq; lia).
      rewrite (take_S_r _ _ _ Hkv), take_insert_ge by lia.
      rewrite <- app_assoc. f_equal.
      replace (length arr - k)%nat with (S (length arr - S k)) by lia.
      reflexivity.
    + apply lookup_insert_eq.
    + rewrite length_insert. exact Hlen.
    + rewrite length_insert. lia.
    + rewrite length_insert. lia.
  - assert (k = length arr) as -> by lia.
    rewrite Nat.sub_diag, take_ge, app_nil_r by lia.
    rewrite (insert_id _ _ _ Hheap). now rewrite world_eta.
Qed.

(** X19: [fill(value)] overwrites every element: afterwards the array holds
    [size()] copies of [value], and nothing else in the world has changed;
    on an empty array it does nothing.  The loop needs one unit of fuel
    more than there are elements. *)
Theorem fill_sets_every_element
    (w : world (A:=A) (D:=D)) (this : nat) (d : dynarray) (v : A)
    (fuel : nat) :
  objects w !! this = Some d -> 0 <= m_count d < 2 ^ 64 ->
  (forall arr, owns w d arr -> (length arr < fuel)%nat ->
     fill fuel this v w
     = Returns (tt, {| objects := objects w;
                       heap := <[m_ptr d := replicate (length arr) v]>
                                 (heap w);
                       deleter_calls := deleter_calls w |}))
  /\ (m_count d = 0 -> (0 < fuel)%nat ->
      fill fuel this v w = Returns (tt, w)).
Proof.
  intros Hobj Hn. split.
  - intros arr [Hheap Hlen] Hfuel. unfold fill.
    change 0 with (Z.of_nat 0).
    rewrite (fill_loop_spec this d v fuel 0 w arr); try assumption; try lia.
    now rewrite take_0, Nat.sub_0_r.
  - intros H0 Hfuel. destruct fuel as [|fuel]; [lia|].
    unfold fill. cbn [fill_loop]. unfold size, bind, this_object, ret.
    rewrite Hobj, H0. reflexivity.
Qed.

Ltac run_object H :=
  repeat first
    [ rewrite H
    | rewrite lookup_insert_eq
    | rewrite Nat.eqb_refl
    | rewrite Z.eqb_refl
    | progress cbn [objects heap deleter_calls m_ptr m_count m_deleter
                    negb orb andb] ].

Lemma release_spec (w : world (A:=A) (D:=D)) (this : nat) (d : dynarray) :
  objects w !! this = Some d ->
  release build this w
  = Returns ((m_ptr d, m_count d), with_object this (emptied d) w).
Proof.
  intros Hobj.
  unfold release, bfensures_terminate, BAREFLANK_CONTRACT_CHECK_TERMINATE,
    get, size, bind, this_object, set_object, ret.
  destruct (core_guideline_compliant build), (ignore_ensures build);
    run_object Hobj; reflexivity.
Qed.

Lemma reset_spec (w : world (A:=A) (D:=D)) (this : nat) (d : dynarray)
    (ptr : nat) (count : Z) :
  objects w !! this = Some d -> 0 <= count ->
  (core_guideline_compliant build = true ->
   (ptr = nullptr <-> count = 0)) ->
  reset invoke build this ptr count w
  = Returns (tt, after_delete invoke d
                   (with_object this
                      {| m_deleter := m_deleter d; m_ptr := ptr;
                         m_count := count |} w)).
Proof.
  intros Hobj Hcount Hok.
  unfold reset, bfexpects_terminate, bfensures_if_terminate,
    BAREFLANK_CONTRACT_CHECK_TERMINATE, after_delete, with_object,
    empty, size, get_deleter, call_deleter, bind, this_object, set_object,
    ret, terminate.
  destruct (core_guideline_compliant build).
  - specialize (Hok eq_refl).
    destruct (Nat.eqb_spec ptr nullptr) as [Hp|Hp].
    + assert (count = 0) as -> by tauto. cbn [negb orb Z.eqb Z.geb].
      run_object Hobj.
      destruct (Nat.eqb (m_ptr d) nullptr), (ignore_ensures build);
        run_object Hobj; reflexivity.
    + assert (Hc : count <> 0) by tauto.
      assert (Hge : (count >=? 1) = true)
        by (rewrite Z.geb_leb; apply Z.leb_le; lia).
      assert (Hz : (count =? 0) = false) by (now apply Z.eqb_neq).
      cbn [negb orb]. rewrite Hge. run_object Hobj.
      destruct (Nat.eqb (m_ptr d) nullptr), (ignore_ensures build);
        run_object Hobj; rewrite ?Hz; reflexivity.
  - run_object Hobj.
    destruct (Nat.eqb (m_ptr d) nullptr); run_object Hobj; reflexivity.
Qed.

Lemma reset_violation (w : world (A:=A) (D:=D)) (this : nat)
    (ptr : nat) (count : Z) :
  core_guideline_compliant build = true -> 0 <= count ->
  ~ (ptr = nullptr <-> count = 0) ->
  reset invoke build this ptr count w = Terminates.
Proof.
  intros Hc Hcount Hbad.
  unfold reset, bfexpects_terminate, BAREFLANK_CONTRACT_CHECK_TERMINATE,
    bind, ret, terminate.
  rewrite Hc.
  destruct (Nat.eqb_spec ptr nullptr) as [Hp|Hp];
    destruct (Z.eqb_spec count 0) as [Hz|Hz]; try tauto;
    cbn [negb orb]; rewrite ?Hz; reflexivity.
Qed.

Lemma destroy_spec (w : world (A:=A) (D:=D)) (this : nat) (d : dynarray) :
  objects w !! this = Some d ->
  destroy invoke this w
  = Returns (tt, {| objects := delete this (objects w);
                    heap := heap (after_delete invoke d w);
                    deleter_calls :=
                      deleter_calls (after_delete invoke d w) |}).
Proof.
  intros Hobj.
  unfold destroy, after_delete, get, size, get_deleter, call_deleter,
    end_of_life, bind, this_object, ret.
  run_object Hobj.
  destruct (Nat.eqb (m_ptr d) nullptr); run_object Hobj; reflexivity.
Qed.

(** X20: [reset(ptr, count)] installs the new array and calls the deleter
    exactly once, on the array held before, when there was one, and not at
    all otherwise.  The arguments must pair a null pointer with a zero
    count and a non-null pointer with a non-zero count: where the contract
    macros are compiled in a violation terminates the program, elsewhere
    the arguments are installed unchecked. *)
Theorem reset_replaces_and_deletes
    (w : world (A:=A) (D:=D)) (this : nat) (d : dynarray)
    (ptr : nat) (count : Z) :
  objects w !! this = Some d -> 0 <= count ->
  let installed := {| m_deleter := m_deleter d; m_ptr := ptr;
                      m_count := count |} in
  ((ptr = nullptr <-> count = 0)
   \/ core_guideline_compliant build = false ->
   reset invoke build this ptr count w
   = Returns (tt, after_delete invoke d (with_object this installed w)))
  /\ (~ (ptr = nullptr <-> count = 0) ->
      core_guideline_compliant build = true ->
      reset invoke build this ptr count w = Terminates)
  /\ (m_ptr d = nullptr ->
      after_delete invoke d (with_object this installed w)
      = with_object this installed w)
  /\ (m_ptr d <> nullptr ->
      deleter_calls (after_delete invoke d (with_object this installed w))
      = deleter_calls w ++ (m_deleter d, m_ptr d, m_count d) :: nil
      /\ heap (after_delete invoke d (with_object this installed w))
         = invoke (m_deleter d) (m_ptr d) (m_count d) (heap w)).
Proof.
  intros Hobj Hcount installed. split; [|split; [|split]].
  - intros Hok. apply reset_spec; try assumption.
    intros Hc. destruct Hok as [Hok|Hnc]; [exact Hok | congruence].
  - intros Hbad Hc. now apply reset_violation.
  - intros Hnull. unfold after_delete. now rewrite Hnull.
  - intros Hnn. unfold after_delete.
    destruct (Nat.eqb_spec (m_ptr d) nullptr) as [E|_]; [contradiction|].
    split; reflexivity.
Qed.

(** X21: [release()] returns the pointer and the count, leaves the object empty
    and calls no deleter; destroying the object afterwards calls none
    either, so the array is still in the heap for its new owner, while
    destroying an object that still holds an array calls the deleter once
    with that array and its count. *)
Theorem release_transfers_ownership
    (w : world (A:=A) (D:=D)) (this : nat) (d : dynarray) :
  objects w !! this = Some d ->
  release build this w
  = Returns ((m_ptr d, m_count d), with_object this (emptied d) w)
  /\ bind (release build this) (fun _ => destroy invoke this) w
     = Returns (tt, {| objects := delete this (objects w);
                       heap := heap w;
                       deleter_calls := deleter_calls w |})
  /\ (m_ptr d <> nullptr ->
      destroy invoke this w
      = Returns (tt, {| objects := delete this (objects w);
                        heap := invoke (m_deleter d) (m_ptr d) (m_count d)
                                  (heap w);
                        deleter_calls :=
                          deleter_calls w
                          ++ (m_deleter d, m_ptr d, m_count d) :: nil |})).
Proof.
  intros Hobj. split; [now apply release_spec|]. split.
  - unfold bind at 1. rewrite (release_spec w this d Hobj).
    rewrite (destroy_spec _ this (emptied d)).
    + unfold with_object, after_delete, emptied. cbn.
      now rewrite delete_insert_eq.
    + apply lookup_insert_eq.
  - intros Hnn. rewrite (destroy_spec w this d Hobj). unfold after_delete.
    destruct (Nat.eqb_spec (m_ptr d) nullptr) as [E|_]; [contradiction|].
    reflexivity.
Qed.

Lemma dynarray_eta (d : dynarray (D:=D)) :
  {| m_deleter := m_deleter d; m_ptr := m_ptr d; m_count := m_count d |} = d.
Proof. now destruct d. Qed.

Lemma after_delete_emptied (d : dynarray (D:=D)) (w : world (A:=A) (D:=D)) :
  after_delete invoke (emptied d) w = w.
Proof. reflexivity. Qed.

Lemma move_assign_spec (w : world (A:=A) (D:=D)) (this r : nat)
    (dt dr : dynarray) :
  this <> r ->
  objects w !! this = Some dt -> objects w !! r = Some dr ->
  0 <= m_count dr ->
  (core_guideline_compliant build = true -> well_formed dr) ->
  move_assign invoke build this r w
  = Returns (this,
             {| objects := <[this := dr]> (<[r := emptied dr]> (objects w));
                heap := heap (after_delete invoke dt w);
                deleter_calls := deleter_calls (after_delete invoke dt w) |}).
Proof.
  intros Hne Ht Hr Hcount Hwf.
  unfold move_assign.
  replace (Nat.eqb r this) with false
    by (symmetry; apply Nat.eqb_neq; congruence).
  unfold bind at 1. rewrite (release_spec w r dr Hr).
  unfold bind at 1, reset_pair. cbn [fst snd].
  rewrite (reset_spec (with_object r (emptied dr) w) this dt
             (m_ptr dr) (m_count dr)).
  - unfold after_delete, with_object, get_deleter, bfensures_terminate,
      BAREFLANK_CONTRACT_CHECK_TERMINATE, empty, size, bind, this_object,
      set_object, ret.
    destruct (Nat.eqb (m_ptr dt) nullptr), (core_guideline_compliant build),
      (ignore_ensures build);
      cbn [objects heap deleter_calls];
      repeat first
        [ rewrite lookup_insert_eq
        | rewrite lookup_insert_ne by congruence
        | rewrite insert_insert_eq
        | rewrite dynarray_eta
        | progress cbn [objects heap deleter_calls m_ptr m_count m_deleter
                        emptied Z.eqb] ];
      reflexivity.
  - cbn [with_object objects]. now rewrite lookup_insert_ne by congruence.
  - exact Hcount.
  - exact Hwf.
Qed.

Lemma move_construct_spec (w : world (A:=A) (D:=D)) (self u : nat)
    (du : dynarray) :
  objects w !! u = Some du -> self <> u ->
  move_construct build self u w
  = Returns (tt, {| objects := <[self := du]> (<[u := emptied du]> (objects w));
                    heap := heap w;
                    deleter_calls := deleter_calls w |}).
Proof.
  intros Hu Hne.
  assert (Hobjs :
    <[self := {| m_deleter := m_deleter du; m_ptr := m_ptr du;
                 m_count := m_count du |}]>
      (<[u := {| m_deleter := m_deleter du; m_ptr := nullptr; m_count := 0 |}]>
         (<[self := {| m_deleter := m_deleter du; m_ptr := m_ptr du;
                       m_count := 0 |}]>
            (<[u := {| m_deleter := m_deleter du; m_ptr := nullptr;
                       m_count := m_count du |}]>
               (<[self := {| m_deleter := m_deleter du; m_ptr := nullptr;
                             m_count := 0 |}]> (objects w)))))
    = <[self := du]> (<[u := emptied du]> (objects w))).
  { rewrite dynarray_eta. unfold emptied. apply map_eq. intros k.
    rewrite !lookup_insert. repeat case_decide; congruence. }
  unfold move_construct, bfensures_terminate,
    BAREFLANK_CONTRACT_CHECK_TERMINATE, empty, size, bind, this_object,
    set_object, ret.
  rewrite Hu.
  destruct (core_guideline_compliant build), (ignore_ensures build);
    repeat first
      [ rewrite lookup_insert_eq
      | rewrite lookup_insert_ne by congruence
      | rewrite Hu
      | progress cbn [objects heap deleter_calls m_ptr m_count m_deleter
                      Z.eqb] ];
    now rewrite Hobjs.
Qed.

(** X22: Move assignment [*this = std::move(r)]: onto itself it does nothing;
    otherwise [*this] takes the array, the count and the deleter of [r],
    [r] is left empty, and the array [*this] held before is handed to the
    deleter [*this] had before, once, if there was one. *)
Theorem move_assignment_transfers
    (w : world (A:=A) (D:=D)) (this r : nat) (dt dr : dynarray) :
  objects w !! this = Some dt -> objects w !! r = Some dr ->
  0 <= m_count dr ->
  (core_guideline_compliant build = true -> well_formed dr) ->
  move_assign invoke build this this w = Returns (this, w)
  /\ (this <> r ->
      move_assign invoke build this r w
      = Returns (this,
                 {| objects := <[this := dr]>
                                 (<[r := emptied dr]> (objects w));
                    heap := heap (after_delete invoke dt w);
                    deleter_calls :=
                      deleter_calls (after_delete invoke dt w) |}))
  /\ (m_ptr dt = nullptr -> after_delete invoke dt w = w)
  /\ (m_ptr dt <> nullptr ->
      deleter_calls (after_delete invoke dt w)
      = deleter_calls w ++ (m_deleter dt, m_ptr dt, m_count dt) :: nil).
Proof.
  intros Ht Hr Hcount Hwf. split; [|split; [|split]].
  - unfold move_assign. now rewrite Nat.eqb_refl.
  - intros Hne. now apply move_assign_spec.
  - intros Hnull. unfold after_delete. now rewrite Hnull.
  - intros Hnn. unfold after_delete.
    destruct (Nat.eqb_spec (m_ptr dt) nullptr) as [E|_]; [contradiction|].
    reflexivity.
Qed.

(** X23: [swap]: the two objects exchange pointer, count and deleter; no deleter
    is called, the heap is untouched and the temporary is gone.  Swapping
    an object with itself leaves the world as it was.  (Where the contract
    macros are compiled in, both objects must satisfy the class invariant,
    which [reset] checks on the way.) *)
Theorem swap_exchanges
    (w : world (A:=A) (D:=D)) (this other : nat) (dt d_other : dynarray) :
  objects w !! this = Some dt -> objects w !! other = Some d_other ->
  0 <= m_count dt -> 0 <= m_count d_other ->
  (core_guideline_compliant build = true ->
   well_formed dt /\ well_formed d_other) ->
  swap invoke build this other w
  = Returns (tt, {| objects := <[this := d_other]> (<[other := dt]> (objects w));
                    heap := heap w;
                    deleter_calls := deleter_calls w |})
  /\ (this = other -> swap invoke build this other w = Returns (tt, w)).
Proof.
  intros Ht Ho Hct Hco Hwf.
  assert (Hmain :
    swap invoke build this other w
    = Returns (tt, {| objects := <[this := d_other]>
                                   (<[other := dt]> (objects w));
                      heap := heap w;
                      deleter_calls := deleter_calls w |}));
    [| split; [exact Hmain|]; intros <-; rewrite Hmain;
       assert (d_other = dt) as -> by congruence;
       rewrite insert_insert_eq, (insert_id _ _ _ Ht);
       now rewrite world_eta ].
  unfold swap.
  pose proof (is_fresh (dom (objects w))) as Hfresh.
  set (tmp := fresh (dom (objects w))) in *.
  apply not_elem_of_dom in Hfresh.
  assert (Htmp_this : tmp <> this) by congruence.
  assert (Htmp_other : tmp <> other) by congruence.
  unfold bind at 1.
  rewrite (move_construct_spec w tmp this dt Ht Htmp_this).
  destruct (Nat.eq_dec this other) as [<-|Hne].
  - (* self swap *)
    assert (d_other = dt) as -> by congruence.
    unfold bind at 1. unfold move_assign at 1. rewrite Nat.eqb_refl.
    unfold ret at 1. unfold bind at 1.
    rewrite (move_assign_spec _ this tmp (emptied dt) dt); cbn [objects];
      try congruence; try (intros Hc; exact (proj1 (Hwf Hc)));
      [| now rewrite lookup_insert_ne, lookup_insert_eq by congruence
       | now rewrite lookup_insert_eq ].
    rewrite (destroy_spec _ tmp (emptied dt));
      [| cbn [objects];
         now rewrite lookup_insert_ne, lookup_insert_eq by congruence ].
    rewrite !after_delete_emptied. cbn [objects heap deleter_calls].
    do 2 f_equal. f_equal.
    apply map_eq. intros k.
    rewrite lookup_delete, !lookup_insert.
    repeat case_decide; subst; congruence.
  - unfold bind at 1.
    rewrite (move_assign_spec _ this other (emptied dt) d_other); cbn [objects];
      try congruence; try (intros Hc; exact (proj2 (Hwf Hc)));
      [| now rewrite lookup_insert_ne, lookup_insert_eq by congruence
       | now rewrite !lookup_insert_ne by congruence ].
    rewrite after_delete_emptied. cbn [heap deleter_calls].
    unfold bind at 1.
    rewrite (move_assign_spec _ other tmp (emptied d_other) dt); cbn [objects];
      try congruence; try (intros Hc; exact (proj1 (Hwf Hc)));
      [| now rewrite lookup_insert_ne, lookup_insert_eq by congruence
       | now rewrite !lookup_insert_ne, lookup_insert_eq by congruence ].
    rewrite after_delete_emptied. cbn [heap deleter_calls].
    rewrite (destroy_spec _ tmp (emptied dt));
      [| cbn [objects];
         now rewrite lookup_insert_ne, lookup_insert_eq by congruence ].
    rewrite after_delete_emptied. cbn [objects heap deleter_calls].
    do 2 f_equal. f_equal.
    apply map_eq. intros k.
    rewrite lookup_delete, !lookup_insert.
    repeat case_decide; subst; congruence.
Qed.

Lemma ptrdiff_wrap_small (z : Z) :
  - 2 ^ 63 <= z < 2 ^ 63 -> ptrdiff_wrap z = z.
Proof.
  intros Hz. unfold ptrdiff_wrap. rewrite Z.mod_small by lia. lia.
Qed.

Lemma size_t_wrap_small (z : Z) : 0 <= z < 2 ^ 64 -> size_t_wrap z = z.
Proof. intros Hz. unfold size_t_wrap. now apply Z.mod_small. Qed.

(** X24: Iterating an array: [begin()] is at index 0 and [end()] at [size()];
    [begin() + i] compares equal to [end()] exactly when [i] is the size,
    [end() - begin()] is the size, and dereferencing [begin() + i] for an
    index in range returns the element [at(i)] returns.  Dereferencing
    [end()] fails as a violated [bfexpects] does in the build, undefined
    behaviour included. *)
Theorem iterator_traversal
    (w : world (A:=A) (D:=D)) (this : nat) (d : dynarray) (i : Z) :
  objects w !! this = Some d -> sized w d -> this <> nullptr ->
  0 <= m_count d < 2 ^ 63 -> 0 <= i <= m_count d ->
  begin_ this w = Returns ({| m_a := this; m_i := 0 |}, w)
  /\ end_ this w = Returns ({| m_a := this; m_i := m_count d |}, w)
  /\ (it_eq (it_add {| m_a := this; m_i := 0 |} i)
        {| m_a := this; m_i := m_count d |} = true <-> i = m_count d)
  /\ it_diff {| m_a := this; m_i := m_count d |} {| m_a := this; m_i := 0 |}
     = m_count d
  /\ (i < m_count d ->
      it_deref build (it_add {| m_a := this; m_i := 0 |} i) w = at_ this i w
      /\ it_index build {| m_a := this; m_i := 0 |} i w = at_ this i w
      /\ exists x, at_ this i w = Returns (x, w))
  /\ it_deref build {| m_a := this; m_i := m_count d |} w
     = on_violated_expects build.
Proof.
  intros Hobj Hsized Hthis Hn Hi.
  assert (Hssize : ptrdiff_wrap (m_count d) = m_count d)
    by (apply ptrdiff_wrap_small; lia).
  assert (Hnn : Nat.eqb this nullptr = false) by (now apply Nat.eqb_neq).
  split; [reflexivity|]. split.
  { unfold end_, ssize, size, bind, this_object, ret.
    now rewrite Hobj, Hssize. }
  split.
  { unfold it_eq, it_add, it_add_assign. cbn [m_a m_i].
    rewrite Nat.eqb_refl, Z.add_0_l, ptrdiff_wrap_small by lia.
    cbn [andb]. apply Z.eqb_eq. }
  split.
  { unfold it_diff. cbn [m_i]. rewrite Z.sub_0_r. exact Hssize. }
  split.
  - intros Hlt.
    destruct (heap w !! m_ptr d) as [arr|] eqn:Hheap;
      [| unfold sized in Hsized; rewrite Hheap in Hsized; lia].
    destruct (subscript_in_range w (m_ptr d) arr i Hheap) as (x & Hx & Hsub).
    { unfold sized in Hsized. rewrite Hheap in Hsized. lia. }
    assert (Hge : (i >=? 0) = true) by (rewrite Z.geb_leb; apply Z.leb_le; lia).
    assert (Hltb : (i <? m_count d) = true) by (apply Z.ltb_lt; lia).
    assert (Hat : at_ this i w = Returns (x, w)).
    { unfold at_, size, get, bind, this_object, ret. rewrite Hobj.
      replace (i >=? m_count d) with false
        by (symmetry; rewrite Z.geb_leb; apply Z.leb_gt; lia).
      now rewrite Hobj, Hsub. }
    rewrite Hat. split; [|split; [|now exists x]].
    + unfold it_deref, it_add, it_add_assign, bfexpects,
        BAREFLANK_CONTRACT_CHECK_THROW, BAREFLANK_CONTRACT_CHECK_TERMINATE,
        ssize, size, get, bind, this_object, ret.
      cbn [m_a m_i].
      rewrite Z.add_0_l, (ptrdiff_wrap_small i), (size_t_wrap_small i) by lia.
      rewrite Hnn. cbn [negb].
      destruct (core_guideline_compliant build), (policy build);
        repeat first [rewrite Hobj | rewrite Hssize | rewrite Hge
                     | rewrite Hltb | rewrite Hsub | progress cbn [andb]];
        congruence.
    + unfold it_index, bfexpects,
        BAREFLANK_CONTRACT_CHECK_THROW, BAREFLANK_CONTRACT_CHECK_TERMINATE,
        size, get, bind, this_object, ret.
      cbn [m_a m_i]. rewrite Hnn. cbn [negb].
      destruct (core_guideline_compliant build), (policy build);
        repeat first [rewrite Hobj | rewrite Hltb | rewrite Hsub];
        congruence.
  - assert (Hge : (m_count d >=? 0) = true)
      by (rewrite Z.geb_leb; apply Z.leb_le; lia).
    assert (Hsub : subscript (m_ptr d) (size_t_wrap (m_count d)) w
                   = Undefined).
    { rewrite size_t_wrap_small by lia. apply subscript_out_of_range.
      unfold sized in Hsized.
      destruct (heap w !! m_ptr d); [lia | exact I]. }
    unfold it_deref, on_violated_expects, bfexpects,
      BAREFLANK_CONTRACT_CHECK_THROW, BAREFLANK_CONTRACT_CHECK_TERMINATE,
      ssize, size, get, bind, this_object, ret, throw, terminate.
    cbn [m_a m_i]. rewrite Hnn. cbn [negb].
    destruct (core_guideline_compliant build), (policy build);
      repeat first [rewrite Hobj | rewrite Hssize | rewrite Hge
                   | rewrite Z.ltb_irrefl | rewrite Hsub
                   | progress cbn [andb]];
      reflexivity.
Qed.

End Facts.

(** ** Instances on a two-element array *)

Lemma at_checked_index_contract_witness :
  at_ 1%nat 2
    (World (A:=Z) (D:=unit) {[ 1%nat := DynArray tt 5%nat 2 ]}
       {[ 5%nat := 10 :: 20 :: nil ]} nil)
  = Throws out_of_range.
Proof.
  refine (proj1 (proj2 (at_checked_index_contract
                          (ContractBuild false NoPolicy false)
                          (World (A:=Z) (D:=unit)
                             {[ 1%nat := DynArray tt 5%nat 2 ]}
                             {[ 5%nat := 10 :: 20 :: nil ]} nil)
                          1%nat (DynArray tt 5%nat 2) 2 _ _ _) _)).
  - apply lookup_singleton_eq.
  - unfold sized. cbn [heap m_ptr m_count]. now rewrite lookup_singleton_eq.
  - lia.
  - cbn. lia.
Defined.

Lemma front_back_access_witness :
  back (ContractBuild true ThrowOnViolation false) 1%nat
    (World (A:=Z) (D:=unit) {[ 1%nat := DynArray tt nullptr 0 ]} ∅ nil)
  = Throws logic_error.
Proof.
  refine (proj2 (proj2 (front_back_access
                          (ContractBuild true ThrowOnViolation false)
                          (World (A:=Z) (D:=unit)
                             {[ 1%nat := DynArray tt nullptr 0 ]} ∅ nil)
                          1%nat (DynArray tt nullptr 0) _ _ _) _)).
  - apply lookup_singleton_eq.
  - unfold sized. cbn [heap m_ptr m_count]. now rewrite lookup_empty.
  - cbn. lia.
  - reflexivity.
Defined.

Lemma equality_compares_first_element_only_witness :
  op_eq 2 1%nat 2%nat
    (World (A:=Z) (D:=unit)
       (<[ 1%nat := DynArray tt 5%nat 2 ]> {[ 2%nat := DynArray tt 6%nat 2 ]})
       (<[ 5%nat := 1 :: 2 :: nil ]> {[ 6%nat := 1 :: 3 :: nil ]}) nil)
  = Returns (bool_decide (1 = 1),
             World (A:=Z) (D:=unit)
               (<[ 1%nat := DynArray tt 5%nat 2 ]>
                  {[ 2%nat := DynArray tt 6%nat 2 ]})
               (<[ 5%nat := 1 :: 2 :: nil ]> {[ 6%nat := 1 :: 3 :: nil ]})
               nil).
Proof.
  refine (proj1 (proj2 (proj2 (equality_compares_first_element_only
                                 (World (A:=Z) (D:=unit)
                                    (<[ 1%nat := DynArray tt 5%nat 2 ]>
                                       {[ 2%nat := DynArray tt 6%nat 2 ]})
                                    (<[ 5%nat := 1 :: 2 :: nil ]>
                                       {[ 6%nat := 1 :: 3 :: nil ]}) nil)
                                 1%nat 2%nat (DynArray tt 5%nat 2)
                                 (DynArray tt 6%nat 2) 2 _ _ _ _))
                  1 1 (2 :: nil) (3 :: nil) _ _ _ _)).
  - apply lookup_insert_eq.
  - cbn [objects]. rewrite lookup_insert_ne by discriminate.
    apply lookup_singleton_eq.
  - cbn. lia.
  - lia.
  - reflexivity.
  - cbn. lia.
  - apply lookup_insert_eq.
  - cbn [heap m_ptr]. rewrite lookup_insert_ne by discriminate.
    apply lookup_singleton_eq.
Defined.

Lemma fill_sets_every_element_witness :
  fill 3 1%nat 7
    (World (A:=Z) (D:=unit) {[ 1%nat := DynArray tt 5%nat 2 ]}
       {[ 5%nat := 10 :: 20 :: nil ]} nil)
  = Returns (tt, World (A:=Z) (D:=unit) {[ 1%nat := DynArray tt 5%nat 2 ]}
                   (<[ 5%nat := 7 :: 7 :: nil ]>
                      {[ 5%nat := 10 :: 20 :: nil ]}) nil).
Proof.
  refine (proj1 (fill_sets_every_element
                   (World (A:=Z) (D:=unit) {[ 1%nat := DynArray tt 5%nat 2 ]}
                      {[ 5%nat := 10 :: 20 :: nil ]} nil)
                   1%nat (DynArray tt 5%nat 2) 7 3 _ _)
            (10 :: 20 :: nil) _ _).
  - apply lookup_singleton_eq.
  - cbn. lia.
  - split; [apply lookup_singleton_eq | reflexivity].
  - cbn. lia.
Defined.

Lemma reset_replaces_and_deletes_witness :
  reset default_deleter (ContractBuild true NoPolicy false) 1%nat nullptr 3
    (World (A:=Z) (D:=unit) {[ 1%nat := DynArray tt 5%nat 2 ]}
       {[ 5%nat := 10 :: 20 :: nil ]} nil)
  = Terminates.
Proof.
  refine (proj1 (proj2 (reset_replaces_and_deletes default_deleter
                          (ContractBuild true NoPolicy false)
                          (World (A:=Z) (D:=unit)
                             {[ 1%nat := DynArray tt 5%nat 2 ]}
                             {[ 5%nat := 10 :: 20 :: nil ]} nil)
                          1%nat (DynArray tt 5%nat 2) nullptr 3 _ _)) _ _).
  - apply lookup_singleton_eq.
  - lia.
  - intros [Hnull _]. discriminate (Hnull eq_refl).
  - reflexivity.
Defined.

Lemma release_transfers_ownership_witness :
  release (ContractBuild true TerminateOnViolation false) 1%nat
    (World (A:=Z) (D:=unit) {[ 1%nat := DynArray tt 5%nat 2 ]}
       {[ 5%nat := 10 :: 20 :: nil ]} nil)
  = Returns ((5%nat, 2),
             with_object 1%nat (emptied (DynArray tt 5%nat 2))
               (World (A:=Z) (D:=unit) {[ 1%nat := DynArray tt 5%nat 2 ]}
                  {[ 5%nat := 10 :: 20 :: nil ]} nil)).
Proof.
  refine (proj1 (release_transfers_ownership default_deleter
                   (ContractBuild true TerminateOnViolation false)
                   (World (A:=Z) (D:=unit) {[ 1%nat := DynArray tt 5%nat 2 ]}
                      {[ 5%nat := 10 :: 20 :: nil ]} nil)
                   1%nat (DynArray tt 5%nat 2) _)).
  apply lookup_singleton_eq.
Defined.

Lemma move_assignment_transfers_witness :
  move_assign default_deleter (ContractBuild true TerminateOnViolation false)
    1%nat 2%nat
    (World (A:=Z) (D:=unit)
       (<[ 1%nat := DynArray tt 5%nat 2 ]> {[ 2%nat := DynArray tt 6%nat 1 ]})
       (<[ 5%nat := 10 :: 20 :: nil ]> {[ 6%nat := 30 :: nil ]}) nil)
  = Returns (1%nat,
             World (A:=Z) (D:=unit)
               (<[ 1%nat := DynArray tt 6%nat 1 ]>
                  (<[ 2%nat := emptied (DynArray tt 6%nat 1) ]>
                     (<[ 1%nat := DynArray tt 5%nat 2 ]>
                        {[ 2%nat := DynArray tt 6%nat 1 ]})))
               (delete 5%nat
                  (<[ 5%nat := 10 :: 20 :: nil ]> {[ 6%nat := 30 :: nil ]}))
               ((tt, 5%nat, 2) :: nil)).
Proof.
  refine (proj1 (proj2 (move_assignment_transfers default_deleter
                          (ContractBuild true TerminateOnViolation false)
                          (World (A:=Z) (D:=unit)
                             (<[ 1%nat := DynArray tt 5%nat 2 ]>
                                {[ 2%nat := DynArray tt 6%nat 1 ]})
                             (<[ 5%nat := 10 :: 20 :: nil ]>
                                {[ 6%nat := 30 :: nil ]}) nil)
                          1%nat 2%nat (DynArray tt 5%nat 2)
                          (DynArray tt 6%nat 1) _ _ _ _)) _).
  - apply lookup_insert_eq.
  - cbn [objects]. rewrite lookup_insert_ne by discriminate.
    apply lookup_singleton_eq.
  - cbn. lia.
  - intros _. split; discriminate.
  - discriminate.
Defined.

Lemma swap_exchanges_witness :
  swap default_deleter (ContractBuild true TerminateOnViolation false)
    1%nat 2%nat
    (World (A:=Z) (D:=unit)
       (<[ 1%nat := DynArray tt 5%nat 2 ]> {[ 2%nat := DynArray tt 6%nat 1 ]})
       (<[ 5%nat := 10 :: 20 :: nil ]> {[ 6%nat := 30 :: nil ]}) nil)
  = Returns (tt,
             World (A:=Z) (D:=unit)
               (<[ 1%nat := DynArray tt 6%nat 1 ]>
                  (<[ 2%nat := DynArray tt 5%nat 2 ]>
                     (<[ 1%nat := DynArray tt 5%nat 2 ]>
                        {[ 2%nat := DynArray tt 6%nat 1 ]})))
               (<[ 5%nat := 10 :: 20 :: nil ]> {[ 6%nat := 30 :: nil ]}) nil).
Proof.
  refine (proj1 (swap_exchanges default_deleter
                   (ContractBuild true TerminateOnViolation false)
                   (World (A:=Z) (D:=unit)
                      (<[ 1%nat := DynArray tt 5%nat 2 ]>
                         {[ 2%nat := DynArray tt 6%nat 1 ]})
                      (<[ 5%nat := 10 :: 20 :: nil ]>
                         {[ 6%nat := 30 :: nil ]}) nil)
                   1%nat 2%nat (DynArray tt 5%nat 2) (DynArray tt 6%nat 1)
                   _ _ _ _ _)).
  - apply lookup_insert_eq.
  - cbn [objects]. rewrite lookup_insert_ne by discriminate.
    apply lookup_singleton_eq.
  - cbn. lia.
  - cbn. lia.
  - intros _. split; split; discriminate.
Defined.

Lemma iterator_traversal_witness :
  it_deref (ContractBuild true ThrowOnViolation false)
    (it_add {| m_a := 1%nat; m_i := 0 |} 1)
    (World (A:=Z) (D:=unit) {[ 1%nat := DynArray tt 5%nat 2 ]}
       {[ 5%nat := 10 :: 20 :: nil ]} nil)
  = at_ 1%nat 1
      (World (A:=Z) (D:=unit) {[ 1%nat := DynArray tt 5%nat 2 ]}
         {[ 5%nat := 10 :: 20 :: nil ]} nil).
Proof.
  refine (proj1 (proj1 (proj2 (proj2 (proj2 (proj2
            (iterator_traversal (ContractBuild true ThrowOnViolation false)
               (World (A:=Z) (D:=unit) {[ 1%nat := DynArray tt 5%nat 2 ]}
                  {[ 5%nat := 10 :: 20 :: nil ]} nil)
               1%nat (DynArray tt 5%nat 2) 1 _ _ _ _ _))))) _)).
  - apply lookup_singleton_eq.
  - unfold sized. cbn [heap m_ptr m_count]. now rewrite lookup_singleton_eq.
  - discriminate.
  - cbn. lia.
  - cbn. lia.
  - cbn. lia.
Defined.

End DynarrayFacts.

(** * Instances of the further properties of safe_integral *)

Lemma min_max_of_select_witness :
  max_of (make 3) (make 7) = make 7
  /\ min_of (make_err 3 true) (make 7) = zero true.
Proof.
  split.
  - destruct (min_max_of_select (make 3) (make 7) 0)
      as (_ & _ & _ & Hok & _).
    exact (proj1 (Hok eq_refl)).
  - destruct (min_max_of_select (make_err 3 true) (make 7) 0)
      as (_ & _ & Hpoison & _).
    exact (proj2 (Hpoison eq_refl)).
Defined.

Lemma sign_trichotomy_witness :
  (is_neg int8 (make (-5)) = true /\ is_zero (make (-5)) = false
   /\ is_pos (make (-5)) = false /\ get (make (-5)) < 0)
  \/ (is_neg int8 (make (-5)) = false /\ is_zero (make (-5)) = true
      /\ is_pos (make (-5)) = false /\ get (make (-5)) = 0)
  \/ (is_neg int8 (make (-5)) = false /\ is_zero (make (-5)) = false
      /\ is_pos (make (-5)) = true /\ 0 < get (make (-5))).
Proof. exact (sign_trichotomy int8 (make (-5)) eq_refl). Defined.

Lemma relational_operators_agree_witness :
  op_eq (make 4) (make 4) = true <-> make 4 = make 4.
Proof.
  destruct (relational_operators_agree (make 4) (make 4) 0)
    as (_ & _ & _ & _ & Hok).
  exact (proj1 (Hok eq_refl eq_refl)).
Defined.

Lemma negation_checked_witness :
  op_neg int8 false false (make 5) = make (-5)
  /\ op_neg int8 false false (op_neg int8 false false (make 5)) = make 5.
Proof.
  apply (proj2 (negation_checked int8 false false (make 5)
                  eq_refl eq_refl eq_refl eq_refl)).
  discriminate.
Defined.

Lemma complement_is_max_minus_witness :
  m_val (op_not uint8 (make 5)) = 250.
Proof.
  exact (proj1 (proj2 (complement_is_max_minus uint8 (make 5)
                         eq_refl eq_refl))).
Defined.

Lemma increment_decrement_witness :
  failure (op_inc int8 false false (make 127)) = true.
Proof.
  apply (proj1 (increment_decrement int8 false false (make 127)
                  eq_refl eq_refl eq_refl)).
  reflexivity.
Defined.

Lemma division_exact_witness :
  op_div int32 false false (make 7) (make (-2))
  = (make (-3), NativeDiv 7 (-2) :: nil).
Proof.
  refine (proj1 (division_exact int32 false false (make 7) (make (-2))
                   eq_refl eq_refl eq_refl _)).
  intros [H|[H|[H|(_ & H & _)]]]; discriminate H.
Defined.

Lemma quotient_remainder_recompose_witness :
  op_add int32 false false
    (op_mul int32 false false
       (value (op_div int32 false false (make 7) (make (-2)))) (make (-2)))
    (value (op_mod int32 false false (make 7) (make (-2))))
  = make 7.
Proof.
  refine (quotient_remainder_recompose int32 false false (make 7) (make (-2))
            eq_refl eq_refl eq_refl _).
  intros [H|[H|[H|(_ & H & _)]]]; discriminate H.
Defined.

Lemma inverse_operations_witness :
  op_sub int8 false false (op_add int8 false false (make 100) (make 20))
    (make 20)
  = make 100.
Proof.
  exact (proj1 (inverse_operations int8 false false (make 100) (make 20)
                  eq_refl eq_refl eq_refl eq_refl eq_refl) eq_refl).
Defined.

Lemma shift_semantics_witness :
  op_shr (op_shl uint8 (make 3) 2) 2 = make 3.
Proof.
  refine (proj2 (proj2 (proj2 (proj2
            (shift_semantics uint8 (make 3) 2 eq_refl eq_refl _)))) eq_refl _).
  - cbn. lia.
  - cbn. lia.
Defined.

Lemma pack_halves_witness :
  op_or uint64 (op_shl uint64 (make 1) 32) (make 5)
  = make (1 * 2 ^ 32 + 5).
Proof.
  refine (proj2 (pack_halves uint64 (make 1) (make 5) 32 eq_refl _ _ _)
            eq_refl eq_refl).
  - cbn. lia.
  - cbn. lia.
  - cbn. lia.
Defined.


Lemma errc_message_table_witness :
  Errc.is_checked Errc.errc_divide_by_zero = false
  /\ (Errc.success Errc.errc_divide_by_zero = true
      <-> Errc.errc_divide_by_zero = Errc.errc_success).
Proof.
  apply (proj2 (proj2 (errc_message_table Errc.errc_divide_by_zero))).
  cbn. tauto.
Defined.
